(** * ChromaViews colour engine: colour utilities, name lookup, deduplication

    Shallow embedding of [frontend/src/lib/colorUtils.ts] and
    [frontend/src/lib/colorNames.ts], and a model, written from the
    specification, of the palette deduplication pass that uses their
    distance.

    A JavaScript [number] is an IEEE-754 binary64 value.  The arithmetic
    code of [colorUtils.ts] is translated once, over an interface
    [JsNumber] of the operations it uses, and read in two ways:

    - over [R] (instance [RealNumber]): exact arithmetic, the reading in
      which the colour-science identities and numeric bounds are proved;
    - over [float] (instance [FloatNumber]): Rocq's primitive binary64
      floats, whose [+ - * / sqrt] are the correctly rounded IEEE
      operations JavaScript performs; [Math.pow] is fixed only as far as
      ECMAScript fixes it (its special cases), the rest is a parameter. *)

From Stdlib Require Import QArith ZArith List Bool Lia.
From Stdlib Require Import Reals Lra.
From Stdlib Require Floats.
From Stdlib Require Import Ascii String HexadecimalString HexadecimalZ.
Import ListNotations.

Set Implicit Arguments.

(** ** The number interface *)

Declare Scope js_scope.
Delimit Scope js_scope with js.

Class JsNumber (num : Type) : Type := {
  lit : Q -> num;                    (* a decimal literal of the source *)
  js_add : num -> num -> num;
  js_sub : num -> num -> num;
  js_mul : num -> num -> num;
  js_div : num -> num -> num;
  js_gt : num -> num -> bool;
  js_lt : num -> num -> bool;
  Math_sqrt : num -> num;
  Math_pow : num -> num -> num
}.

Infix "+" := js_add : js_scope.
Infix "-" := js_sub : js_scope.
Infix "*" := js_mul : js_scope.
Infix "/" := js_div : js_scope.
Infix ">?" := js_gt (at level 70, no associativity) : js_scope.
Infix "<?" := js_lt (at level 70, no associativity) : js_scope.

(** ** colorUtils.ts *)

Record RGB : Type := { rgb_r : Z; rgb_g : Z; rgb_b : Z }.

Record LAB (num : Type) : Type := { lab_l : num; lab_a : num; lab_b : num }.

Arguments Build_LAB {num} _ _ _.
Arguments lab_l {num} _.
Arguments lab_a {num} _.
Arguments lab_b {num} _.

Section ColorUtils.
Context {num : Type} `{JsNumber num}.
Local Open Scope js_scope.

(** The three stages of [rgbToLab], one definition per block of the
    source function. *)

(* rn > 0.04045 ? Math.pow((rn + 0.055) / 1.055, 2.4) : rn / 12.92 *)
Definition gammaCorrect (c : num) : num :=
  if c >? lit 0.04045
  then Math_pow ((c + lit 0.055) / lit 1.055) (lit 2.4)
  else c / lit 12.92.

(* x > 0.008856 ? Math.pow(x, 1/3) : (7.787 * x + 16/116) *)
Definition labCurve (t : num) : num :=
  if t >? lit 0.008856
  then Math_pow t (lit 1 / lit 3)
  else lit 7.787 * t + lit 16 / lit 116.

Definition rgbToLab (r g b : num) : LAB num :=
  let rn := r / lit 255 in
  let gn := g / lit 255 in
  let bn := b / lit 255 in
  let rn := gammaCorrect rn in
  let gn := gammaCorrect gn in
  let bn := gammaCorrect bn in
  let x := (rn * lit 0.4124564 + gn * lit 0.3575761 + bn * lit 0.1804375) / lit 0.95047 in
  let y := (rn * lit 0.2126729 + gn * lit 0.7151522 + bn * lit 0.0721750) / lit 1.00000 in
  let z := (rn * lit 0.0193339 + gn * lit 0.1191920 + bn * lit 0.9503041) / lit 1.08883 in
  let fx := labCurve x in
  let fy := labCurve y in
  let fz := labCurve z in
  {| lab_l := lit 116 * fy - lit 16;
     lab_a := lit 500 * (fx - fy);
     lab_b := lit 200 * (fy - fz) |}.

(** [deltaE2000]: the source's "simplified" colour difference.  The
    argument of the square root that yields [dh] is named, since its sign
    decides whether [dh] is a number. *)
Definition hueRadicand (lab1 lab2 : LAB num) : num :=
  let da := lab_a lab1 - lab_a lab2 in
  let db := lab_b lab1 - lab_b lab2 in
  let c1 := Math_sqrt (lab_a lab1 * lab_a lab1 + lab_b lab1 * lab_b lab1) in
  let c2 := Math_sqrt (lab_a lab2 * lab_a lab2 + lab_b lab2 * lab_b lab2) in
  let dc := c1 - c2 in
  da * da + db * db - dc * dc.

Definition deltaE2000 (lab1 lab2 : LAB num) : num :=
  let dL := lab_l lab1 - lab_l lab2 in
  let da := lab_a lab1 - lab_a lab2 in
  let db := lab_b lab1 - lab_b lab2 in
  let c1 := Math_sqrt (lab_a lab1 * lab_a lab1 + lab_b lab1 * lab_b lab1) in
  let c2 := Math_sqrt (lab_a lab2 * lab_a lab2 + lab_b lab2 * lab_b lab2) in
  let dc := c1 - c2 in
  let dh := Math_sqrt (da * da + db * db - dc * dc) in
  let sl := lit 1 in
  let sc := lit 1 + lit 0.045 * c1 in
  let sh := lit 1 + lit 0.015 * c1 in
  Math_sqrt
    (Math_pow (dL / sl) (lit 2) +
     Math_pow (dc / sc) (lit 2) +
     Math_pow (dh / sh) (lit 2)).

End ColorUtils.

(** ** Exact arithmetic: numbers as reals *)

(** [Math.pow] over the reals: the square for the literal exponent [2],
    whatever the base, and [exp (y * ln x)] otherwise, which is the power for
    a positive base.  The source has no other call: its bases are positive
    behind the [> 0.04045] and [> 0.008856] guards. *)
Definition Rpow_js (x y : R) : R :=
  if Req_dec_T y 2 then (x * x)%R else Rpower x y.

Definition Rgtb (x y : R) : bool := if Rgt_dec x y then true else false.
Definition Rltb (x y : R) : bool := if Rlt_dec x y then true else false.

#[export] Instance RealNumber : JsNumber R := {|
  lit := Q2R;
  js_add := Rplus;
  js_sub := Rminus;
  js_mul := Rmult;
  js_div := Rdiv;
  js_gt := Rgtb;
  js_lt := Rltb;
  Math_sqrt := R_sqrt.sqrt;
  Math_pow := Rpow_js
|}.

(** ** Machine arithmetic: numbers as binary64 floats *)

Abbreviation float := PrimFloat.float.

Definition float_of_Z (z : Z) : float :=
  match z with
  | Z0 => PrimFloat.zero
  | Zpos _ => PrimFloat.of_uint63 (Uint63.of_Z z)
  | Zneg _ => PrimFloat.opp (PrimFloat.of_uint63 (Uint63.of_Z (Z.opp z)))
  end.

(** A decimal literal denotes the double nearest to it: numerator and
    denominator are exact doubles here, and their quotient is correctly
    rounded. *)
Definition float_lit (q : Q) : float :=
  PrimFloat.div (float_of_Z (Qnum q)) (float_of_Z (Zpos (Qden q))).

Definition is_zero_float (x : float) : bool := PrimFloat.eqb x PrimFloat.zero.

Section FloatNumber.
(** The implementation-approximated part of [Math.pow]. *)
Variable approx_pow : float -> float -> float.

(** ECMAScript [Number::exponentiate], steps 1 to 3: a [NaN] exponent gives
    [NaN], a zero exponent gives 1, otherwise a [NaN] base gives [NaN]. *)
Definition Fpow_js (x y : float) : float :=
  if PrimFloat.is_nan y then PrimFloat.nan
  else if is_zero_float y then PrimFloat.one
  else if PrimFloat.is_nan x then PrimFloat.nan
  else approx_pow x y.

Definition FloatNumber : JsNumber float := {|
  lit := float_lit;
  js_add := PrimFloat.add;
  js_sub := PrimFloat.sub;
  js_mul := PrimFloat.mul;
  js_div := PrimFloat.div;
  js_gt := fun x y => PrimFloat.ltb y x;
  js_lt := PrimFloat.ltb;
  Math_sqrt := PrimFloat.sqrt;
  Math_pow := Fpow_js
|}.
End FloatNumber.

(** The chroma of a Lab colour: the [c1], [c2] of [deltaE2000]. *)
Definition chroma {num : Type} `{JsNumber num} (lab : LAB num) : num :=
  Math_sqrt (lab_a lab * lab_a lab + lab_b lab * lab_b lab)%js.


(** A Lab colour given by three decimal literals. *)
Definition labOf {num : Type} `{JsNumber num} (l a b : Q) : LAB num :=
  {| lab_l := lit l; lab_a := lit a; lab_b := lit b |}.

(** ** Strings, the hex pattern and [parseInt]

    A string is a sequence of character codes; the pattern below only ever
    accepts ASCII characters, so 8-bit characters lose nothing. *)

Local Open Scope string_scope.
Local Open Scope Z_scope.

Definition charCode (c : ascii) : Z := Z.of_N (N_of_ascii c).

(** The class [[a-f\d]] under the [i] flag. *)
Definition hexClass (c : ascii) : bool :=
  let n := charCode c in
  ((48 <=? n) && (n <=? 57)) ||      (* \d  *)
  ((97 <=? n) && (n <=? 102)) ||     (* a-f *)
  ((65 <=? n) && (n <=? 70)).        (* A-F, by the i flag *)

(** One capture group [([a-f\d]{2})]: the group and the rest of the input. *)
Definition hexGroup (s : string) : option (string * string) :=
  match s with
  | String c1 (String c2 rest) =>
      if hexClass c1 && hexClass c2
      then Some (String c1 (String c2 EmptyString), rest)
      else None
  | _ => None
  end.

(** The optional [#?] at the start.  Skipping a leading [#] loses no match:
    [#] is not in the class, so a match cannot start at it. *)
Definition stripHash (hex : string) : string :=
  match hex with
  | String c rest => if Ascii.eqb c "#" then rest else hex
  | EmptyString => hex
  end.

(** [/^#?([a-f\d]{2})([a-f\d]{2})([a-f\d]{2})$/i.exec(hex)]: the three
    capture groups, or [None] for [null]. *)
Definition hexPatternExec (hex : string) : option (string * string * string) :=
  match hexGroup (stripHash hex) with
  | Some (g1, rest1) =>
      match hexGroup rest1 with
      | Some (g2, rest2) =>
          match hexGroup rest2 with
          | Some (g3, EmptyString) => Some (g1, g2, g3)
          | _ => None
          end
      | None => None
      end
  | None => None
  end.

(** The value of a digit in radix 16, as [parseInt] reads it. *)
Definition digit16 (c : ascii) : option Z :=
  let n := charCode c in
  if (48 <=? n) && (n <=? 57) then Some (n - 48)
  else if (97 <=? n) && (n <=? 102) then Some (n - 87)
  else if (65 <=? n) && (n <=? 70) then Some (n - 55)
  else None.

(** [parseInt(s, 16)] on a string without sign, blanks or [0x] prefix (the
    capture groups have none): the value of the longest prefix of digits, and
    [None] for [NaN] when there is no digit. *)
Fixpoint parseDigits16 (s : string) (acc : option Z) : option Z :=
  match s with
  | EmptyString => acc
  | String c rest =>
      match digit16 c with
      | Some d =>
          parseDigits16 rest
            (Some (16 * match acc with Some v => v | None => 0 end + d))
      | None => acc
      end
  end.

Definition parseInt16 (s : string) : option Z := parseDigits16 s None.

(** [.map(x => parseInt(x, 16))] on the three groups.  A group is two
    digits, so each parses to a number and the result is never [None]
    (lemma [parseGroups_total]). *)
Definition parseGroups (gs : string * string * string) : option (Z * Z * Z) :=
  let '(g1, g2, g3) := gs in
  match parseInt16 g1, parseInt16 g2, parseInt16 g3 with
  | Some r, Some g, Some b => Some (r, g, b)
  | _, _, _ => None
  end.

Inductive result (A : Type) : Type :=
| Ok (value : A)
| Throw (message : string).

Arguments Ok {A} _.
Arguments Throw {A} _.

Definition hexToRgb (hex : string) : result RGB :=
  match hexPatternExec hex with
  | None => Throw ("Invalid hex color: " ++ hex)
  | Some gs =>
      match parseGroups gs with
      | Some (r, g, b) => Ok {| rgb_r := r; rgb_g := g; rgb_b := b |}
      | None => Throw "NaN"   (* a group that is not a number: never the case *)
      end
  end.

(** [Math.round]: the nearest integer, halves rounded up. *)
Definition Math_round (x : R) : Z := Zfloor (x + / 2).

(** [n.toString(16)] for an integer [n]. *)
Definition toString16 (n : Z) : string := NilZero.string_of_int (Z.to_hex_int n).

(* hex.length === 1 ? '0' + hex : hex *)
Definition padByte (hex : string) : string :=
  if (Z.of_nat (String.length hex) =? 1) then "0" ++ hex else hex.

Definition hexByte (x : R) : string := padByte (toString16 (Math_round x)).

Definition rgbToHex (r g b : R) : string :=
  "#" ++ String.concat "" (map hexByte [r; g; b]).

(** ** colorNames.ts *)

Record ColorName : Type := {
  name : string;
  hex : string;
  rgb : Z * Z * Z
}.

Definition colorNames : list ColorName := [
  (* CSS Basic Colors *)
  {| name := "black"; hex := "#000000"; rgb := (0, 0, 0) |};
  {| name := "white"; hex := "#FFFFFF"; rgb := (255, 255, 255) |};
  {| name := "red"; hex := "#FF0000"; rgb := (255, 0, 0) |};
  {| name := "green"; hex := "#008000"; rgb := (0, 128, 0) |};
  {| name := "blue"; hex := "#0000FF"; rgb := (0, 0, 255) |};
  {| name := "yellow"; hex := "#FFFF00"; rgb := (255, 255, 0) |};
  {| name := "cyan"; hex := "#00FFFF"; rgb := (0, 255, 255) |};
  {| name := "magenta"; hex := "#FF00FF"; rgb := (255, 0, 255) |};
  {| name := "orange"; hex := "#FFA500"; rgb := (255, 165, 0) |};
  {| name := "pink"; hex := "#FFC0CB"; rgb := (255, 192, 203) |};
  {| name := "purple"; hex := "#800080"; rgb := (128, 0, 128) |};
  {| name := "brown"; hex := "#A52A2A"; rgb := (165, 42, 42) |};
  {| name := "gray"; hex := "#808080"; rgb := (128, 128, 128) |};
  {| name := "grey"; hex := "#808080"; rgb := (128, 128, 128) |};
  (* Common named colors *)
  {| name := "steel blue"; hex := "#4682B4"; rgb := (70, 130, 180) |};
  {| name := "mustard"; hex := "#FFDB58"; rgb := (255, 219, 88) |};
  {| name := "navy"; hex := "#000080"; rgb := (0, 0, 128) |};
  {| name := "teal"; hex := "#008080"; rgb := (0, 128, 128) |};
  {| name := "olive"; hex := "#808000"; rgb := (128, 128, 0) |};
  {| name := "maroon"; hex := "#800000"; rgb := (128, 0, 0) |};
  {| name := "lime"; hex := "#00FF00"; rgb := (0, 255, 0) |};
  {| name := "aqua"; hex := "#00FFFF"; rgb := (0, 255, 255) |};
  {| name := "silver"; hex := "#C0C0C0"; rgb := (192, 192, 192) |};
  {| name := "gold"; hex := "#FFD700"; rgb := (255, 215, 0) |}
].

Section NameLookup.
Context {num : Type} `{JsNumber num}.
Local Open Scope js_scope.

(** An integer as a number. *)
Definition ofInt (z : Z) : num := lit (inject_Z z).

(* Math.sqrt(Math.pow(r - color.rgb[0], 2) + ... ) *)
Definition rgbDistance (r g b : Z) (color : ColorName) : num :=
  let '(c0, c1, c2) := rgb color in
  Math_sqrt
    (Math_pow (ofInt r - ofInt c0) (lit 2) +
     Math_pow (ofInt g - ofInt c1) (lit 2) +
     Math_pow (ofInt b - ofInt c2) (lit 2)).

(** The loop state: [minDist] and [nearest].  [minDist] starts at
    [Infinity], written [None]; every distance is a number, hence below
    it. *)
Definition scanState : Type := (option num * option ColorName)%type.

Definition below (dist : num) (minDist : option num) : bool :=
  match minDist with
  | None => true
  | Some m => dist <? m
  end.

Definition scanStep (r g b : Z) (st : scanState) (color : ColorName) : scanState :=
  let dist := rgbDistance r g b color in
  if below dist (fst st) then (Some dist, Some color) else st.

Definition scanColors (r g b : Z) (colors : list ColorName) (st : scanState) : scanState :=
  fold_left (scanStep r g b) colors st.

(** The state at the [return] of [findNearestColorName], when the pattern
    matched. *)
Definition findNearestScan (hex : string) : option scanState :=
  match hexPatternExec hex with
  | None => None
  | Some gs =>
      match parseGroups gs with
      | Some (r, g, b) => Some (scanColors r g b colorNames (None, None))
      | None => None                   (* not reachable *)
      end
  end.

Definition findNearestColorName (hex : string) : option ColorName :=
  match findNearestScan hex with
  | None => None                       (* if (r === undefined) return null *)
  | Some st => snd st                  (* return nearest *)
  end.
End NameLookup.

(** ** Notions used in the statements *)

(** A well-formed colour string: an optional [#], then exactly six
    hexadecimal digits of either case. *)
Definition hexAlphabet : list ascii := list_ascii_of_string "0123456789abcdefABCDEF".

Definition sixHexDigits (body : string) : Prop :=
  String.length body = 6%nat /\
  Forall (fun c => In c hexAlphabet) (list_ascii_of_string body).

Definition wellFormedHex (s : string) : Prop :=
  sixHexDigits s \/ exists body, s = String "#" body /\ sixHexDigits body.

(** The strings the pattern accepts, once the optional [#] is dropped. *)
Definition sixOf (c1 c2 c3 c4 c5 c6 : ascii) : string :=
  String c1 (String c2 (String c3 (String c4 (String c5 (String c6 EmptyString))))).

(** The value of a pair of hexadecimal digits. *)
Definition pairValue (c1 c2 : ascii) : Z :=
  match digit16 c1, digit16 c2 with
  | Some d1, Some d2 => 16 * d1 + d2
  | _, _ => 0
  end.

(** [c] is the first entry of [l] at which [f] is least. *)
Definition firstMinimizer {A : Type} (f : A -> R) (l : list A) (c : A) : Prop :=
  exists i : nat,
    nth_error l i = Some c /\
    (forall j e, nth_error l j = Some e -> (f c <= f e)%R) /\
    (forall j e, (j < i)%nat -> nth_error l j = Some e -> (f c < f e)%R).

(** The Lab colour of an integer RGB triple. *)
Definition labOfRgb {num : Type} `{JsNumber num} (c : Z * Z * Z) : LAB num :=
  let '(r, g, b) := c in rgbToLab (ofInt r) (ofInt g) (ofInt b).

(** ** The scan in integers

    The distances compared by [findNearestColorName] are square roots of
    integers; comparing the integers gives the same scan, and one that
    evaluates. *)

Definition sqDistance (r g b : Z) (color : ColorName) : Z :=
  let '(c0, c1, c2) := rgb color in
  (r - c0) * (r - c0) + (g - c1) * (g - c1) + (b - c2) * (b - c2).

Definition scanStepSq (r g b : Z) (st : option (Z * ColorName)) (color : ColorName)
  : option (Z * ColorName) :=
  let d := sqDistance r g b color in
  match st with
  | None => Some (d, color)
  | Some (m, _) => if d <? m then Some (d, color) else st
  end.

Definition scanColorsSq (r g b : Z) (colors : list ColorName)
  (st : option (Z * ColorName)) : option (Z * ColorName) :=
  fold_left (scanStepSq r g b) colors st.

(** The loop state over the reals that an integer state stands for. *)
Definition realState (st : option (Z * ColorName)) : scanState (num := R) :=
  match st with
  | None => (None, None)
  | Some (m, c) => (Some (sqrt (IZR m)), Some c)
  end.

(** The loop state holds an entry of [all]. *)
Definition holdsEntry {num : Type} (all : list ColorName)
  (st : option num * option ColorName) : Prop :=
  exists c, snd st = Some c /\ In c all.

Definition nonnegState (st : option (Z * ColorName)) : Prop :=
  match st with
  | None => True
  | Some (m, _) => 0 <= m
  end.

(** Table entries named in the statements. *)
Definition redEntry : ColorName :=
  {| name := "red"; hex := "#FF0000"; rgb := (255, 0, 0) |}.
Definition blueEntry : ColorName :=
  {| name := "blue"; hex := "#0000FF"; rgb := (0, 0, 255) |}.
Definition magentaEntry : ColorName :=
  {| name := "magenta"; hex := "#FF00FF"; rgb := (255, 0, 255) |}.

(** The digits [rgbToHex] writes. *)
Definition lowerHexAlphabet : list ascii := list_ascii_of_string "0123456789abcdef".

(** The check of one channel value: its padded text is two lower-case
    hexadecimal digits whose value is the channel. *)
Definition byteOk (z : Z) : bool :=
  match padByte (toString16 z) with
  | String c1 (String c2 EmptyString) =>
      existsb (Ascii.eqb c1) lowerHexAlphabet &&
      existsb (Ascii.eqb c2) lowerHexAlphabet &&
      hexClass c1 && hexClass c2 && (pairValue c1 c2 =? z)
  | _ => false
  end.

(** The part of [rgbToLab] after gamma correction, over the reals: from
    linear RGB to Lab. *)
Definition labOfLinear (rn gn bn : R) : LAB R :=
  let x := ((rn * 0.4124564 + gn * 0.3575761 + bn * 0.1804375) / 0.95047)%R in
  let y := ((rn * 0.2126729 + gn * 0.7151522 + bn * 0.0721750) / 1)%R in
  let z := ((rn * 0.0193339 + gn * 0.1191920 + bn * 0.9503041) / 1.08883)%R in
  {| lab_l := (116 * labCurve y - 16)%R;
     lab_a := (500 * (labCurve x - labCurve y))%R;
     lab_b := (200 * (labCurve y - labCurve z))%R |}.

(** Colours used in the numeric statements. *)
Definition pureRed : Z * Z * Z := (255, 0, 0).
Definition pureGreen : Z * Z * Z := (0, 255, 0).
Definition pureBlue : Z * Z * Z := (0, 0, 255).
Definition pureMagenta : Z * Z * Z := (255, 0, 255).
Definition violet : Z * Z * Z := (128, 0, 255).        (* "8000FF" *)

(** ** The conversion as the specification words it (section 4.1)

    Used only to compare with [rgbToLab]: gamma decoding, then XYZ under
    D65, then Lab.  Where the wording leaves a point open (a channel exactly
    at a breakpoint) the relation allows either branch. *)
Module Spec.

(** sRGB gamma decoding: linear below the threshold, power curve above. *)
Definition srgbDecode (c v : R) : Prop :=
  ((c < 0.04045)%R -> v = (c / 12.92)%R) /\
  ((c > 0.04045)%R -> v = Rpower ((c + 0.055) / 1.055) 2.4).

(** Linear sRGB to CIE XYZ, the fixed matrix for the D65 white point. *)
Definition xyzOfLinear (rl gl bl : R) : R * R * R :=
  ((0.4124564 * rl + 0.3575761 * gl + 0.1804375 * bl)%R,
   (0.2126729 * rl + 0.7151522 * gl + 0.0721750 * bl)%R,
   (0.0193339 * rl + 0.1191920 * gl + 0.9503041 * bl)%R).

Definition whiteD65 : R * R * R := (0.95047%R, 1%R, 1.08883%R).

Definition cubeRoot (t f : R) : Prop := (0 <= f)%R /\ (f ^ 3)%R = t.

(** The Lab curve: cube root above the breakpoint, linear below. *)
Definition labF (t f : R) : Prop :=
  ((t > 0.008856)%R -> cubeRoot t f) /\
  ((t < 0.008856)%R -> f = (7.787 * t + 16 / 116)%R).

Definition rgbToLab (r g b : R) (lab : LAB R) : Prop :=
  exists rl gl bl fx fy fz : R,
    srgbDecode (r / 255) rl /\ srgbDecode (g / 255) gl /\ srgbDecode (b / 255) bl /\
    let '(X, Y, Z) := xyzOfLinear rl gl bl in
    let '(Xn, Yn, Zn) := whiteD65 in
    labF (X / Xn) fx /\ labF (Y / Yn) fy /\ labF (Z / Zn) fz /\
    lab = {| lab_l := (116 * fy - 16)%R;
             lab_a := (500 * (fx - fy))%R;
             lab_b := (200 * (fy - fz))%R |}.

End Spec.

(** ** The deduplication pass of the palette extractor (section 4.4)

    The palette extractor lives in the backend (color_analyzer.py), which
    is not among the sources; what follows is written from the
    specification.  "Whenever two entries' perceptualDistance is below a
    fixed threshold (5.0), merge them into one entry keeping the RGB/hex/Lab
    of whichever had the higher percent and summing their percent values;
    repeat until no pair is within threshold." *)

Section Dedupe.
Variable E : Type.
Variable near : E -> E -> bool.       (* the two entries are within the threshold *)
Variable merge : E -> E -> E.

(** Modelled from the spec: the search, absent from the sources, for the
    first entry of [l] within the threshold of [x]; it returns that entry
    and the entries before and after it. *)
Fixpoint splitNear (x : E) (l : list E) : option (list E * E * list E) :=
  match l with
  | [] => None
  | y :: l' =>
      if near x y then Some ([], y, l')
      else match splitNear x l' with
           | Some (pre, z, post) => Some (y :: pre, z, post)
           | None => None
           end
  end.

(** Modelled from the spec: one scan of the deduplication pass, absent from
    the sources.  Pairs are taken in palette order; the first pair within
    the threshold is merged into the place of its earlier entry; [None] when
    no pair is within the threshold. *)
Fixpoint mergeFirstPair (l : list E) : option (list E) :=
  match l with
  | [] => None
  | x :: rest =>
      match splitNear x rest with
      | Some (pre, y, post) => Some (merge x y :: pre ++ post)
      | None =>
          match mergeFirstPair rest with
          | Some rest' => Some (x :: rest')
          | None => None
          end
      end
  end.

(** Modelled from the spec: the loop of the deduplication pass, absent from
    the sources: scan and merge until no pair is within the threshold.  Every
    merge shortens the list, so [length l] rounds are enough (lemma
    [dedupeLoop_settled]). *)
Fixpoint dedupeLoop (fuel : nat) (l : list E) : list E :=
  match fuel with
  | O => l
  | S fuel' =>
      match mergeFirstPair l with
      | Some l' => dedupeLoop fuel' l'
      | None => l
      end
  end.

(** Modelled from the spec: the deduplication pass, absent from the
    sources. *)
Definition dedupe (l : list E) : list E := dedupeLoop (List.length l) l.
End Dedupe.

Module Palette.
Section Entries.
Context {num : Type} {N : JsNumber num}.
Local Open Scope js_scope.

(** Modelled from the spec: the Palette Entry of section 3, built by the
    absent palette extractor. *)
Record Entry : Type := {
  rgb : Z * Z * Z;
  lab : LAB num;
  hex : string;
  name : string;
  percent : num
}.

(** Modelled from the spec: the fixed merge threshold of the absent
    deduplication pass. *)
Definition threshold : num := lit 5.0.

(** Modelled from the spec: [perceptualDistance] of section 4.1 as the
    absent palette extractor uses it; it is [deltaE2000] of colorUtils.ts,
    in the arithmetic of the caller. *)
Definition perceptualDistance (lab1 lab2 : LAB num) : num := deltaE2000 lab1 lab2.

(** Modelled from the spec: the test of the absent deduplication pass that
    two entries are within the threshold: their [perceptualDistance], from
    the entry that comes first in the palette to the one that comes later,
    is below 5.0. *)
Definition near (e1 e2 : Entry) : bool :=
  perceptualDistance (lab e1) (lab e2) <? threshold.

(** Modelled from the spec: the merge of the absent deduplication pass; the
    merged entry keeps the colour of the entry with the higher percent and
    carries the sum of the two. *)
Definition merge (e1 e2 : Entry) : Entry :=
  let keep := if percent e1 <? percent e2 then e2 else e1 in
  {| rgb := rgb keep; lab := lab keep; hex := hex keep; name := name keep;
     percent := percent e1 + percent e2 |}.

(** Modelled from the spec: the deduplication pass of the absent palette
    extractor, on palette entries. *)
Definition deduplicate (palette : list Entry) : list Entry :=
  dedupe near merge palette.

Definition totalPercent (palette : list Entry) : num :=
  fold_right (fun e acc => percent e + acc) (lit 0) palette.

End Entries.
Arguments Entry num : clear implicits.

End Palette.


(** * The rest of the frontend library

    The functions of colorUtils.ts, colorNames.ts, imageUtils.ts and api.ts
    that the sections above do not use, and the arithmetic of the image
    component that draws the labels. *)

(** ** More of the number interface: [<=], [Math.min] and truthiness *)

Class JsOrder (num : Type) : Type := {
  js_le : num -> num -> bool;
  Math_min : num -> num -> num;
  js_truthy : num -> bool             (* a number used as a condition *)
}.

Infix "<=?" := js_le (at level 70, no associativity) : js_scope.

Definition Rleb (x y : R) : bool := if Rle_dec x y then true else false.

Definition Rtruthy (x : R) : bool := if Req_dec_T x 0 then false else true.

#[export] Instance RealOrder : JsOrder R := {|
  js_le := Rleb;
  Math_min := Rmin;
  js_truthy := Rtruthy
|}.

(** [Math.min] on doubles: [NaN] if either argument is, and [-0] below
    [+0]. *)
Definition Fmin_js (x y : float) : float :=
  if PrimFloat.is_nan x || PrimFloat.is_nan y then PrimFloat.nan
  else if PrimFloat.ltb x y then x
  else if PrimFloat.ltb y x then y
  else if PrimFloat.ltb (PrimFloat.div PrimFloat.one x) PrimFloat.zero then x
  else y.

(** A double is falsy when it is [+0], [-0] or [NaN]. *)
Definition Ftruthy (x : float) : bool :=
  negb (PrimFloat.is_nan x) && negb (PrimFloat.eqb x PrimFloat.zero).

Definition FloatOrder : JsOrder float := {|
  js_le := PrimFloat.leb;
  Math_min := Fmin_js;
  js_truthy := Ftruthy
|}.

(** ** colorUtils.ts: [luminance] and [getTextColor] *)

Inductive TextColor : Type := black | white.

Section Luminance.
Context {num : Type} {N : JsNumber num} {O : JsOrder num}.
Local Open Scope js_scope.

(* val => { val = val / 255
            return val <= 0.03928 ? val / 12.92 : Math.pow((val + 0.055) / 1.055, 2.4) } *)
Definition luminanceChannel (val : num) : num :=
  let val := val / lit 255 in
  if val <=? lit 0.03928
  then val / lit 12.92
  else Math_pow ((val + lit 0.055) / lit 1.055) (lit 2.4).

Definition luminance (r g b : num) : num :=
  let rs := luminanceChannel r in
  let gs := luminanceChannel g in
  let bs := luminanceChannel b in
  lit 0.2126 * rs + lit 0.7152 * gs + lit 0.0722 * bs.

(** [getTextColor]: the error of [hexToRgb] is not caught and leaves the
    function. *)
Definition getTextColor (hex : string) : result TextColor :=
  match hexToRgb hex with
  | Throw message => Throw message
  | Ok rgb =>
      let lum := luminance (ofInt (rgb_r rgb)) (ofInt (rgb_g rgb)) (ofInt (rgb_b rgb)) in
      Ok (if lum >? lit 0.5 then black else white)
  end.
End Luminance.

(** ** Notions used in the statements about hex strings *)

Local Open Scope Z_scope.

(** A letter in the other case; any other character is left alone. *)
Definition lowerChar (c : ascii) : ascii :=
  let n := charCode c in
  if (65 <=? n) && (n <=? 90) then ascii_of_N (Z.to_N (n + 32)) else c.

Definition upperChar (c : ascii) : ascii :=
  let n := charCode c in
  if (97 <=? n) && (n <=? 122) then ascii_of_N (Z.to_N (n - 32)) else c.

Fixpoint mapString (f : ascii -> ascii) (s : string) : string :=
  match s with
  | EmptyString => EmptyString
  | String c rest => String (f c) (mapString f rest)
  end.

(** The check, for two hexadecimal digits, that either case reads the same
    value and that [rgbToHex] writes the value back in lower case. *)
Definition pairOk (c1 c2 : ascii) : bool :=
  (pairValue (upperChar c1) (upperChar c2) =? pairValue c1 c2) &&
  (pairValue (lowerChar c1) (lowerChar c2) =? pairValue c1 c2) &&
  hexClass (upperChar c1) && hexClass (lowerChar c1) &&
  String.eqb (padByte (toString16 (pairValue c1 c2)))
             (String (lowerChar c1) (String (lowerChar c2) EmptyString)).

(** The first entry of the table with a given triple. *)
Definition sameTriple (t u : Z * Z * Z) : bool :=
  let '(a, b, c) := t in
  let '(a', b', c') := u in
  (a =? a') && (b =? b') && (c =? c').

Definition firstWithTriple (t : Z * Z * Z) : option ColorName :=
  find (fun e => sameTriple (rgb e) t) colorNames.

Definition tripleOf (c : RGB) : Z * Z * Z := (rgb_r c, rgb_g c, rgb_b c).

(** The check of one table entry: its [hex] field reads, by [hexToRgb], as
    its [rgb] field, and the first entry with that triple has the same
    [hex] field. *)
Definition entryOk (e : ColorName) : bool :=
  match hexToRgb (hex e), firstWithTriple (rgb e) with
  | Ok c, Some e' => sameTriple (tripleOf c) (rgb e) && String.eqb (hex e') (hex e)
  | _, _ => false
  end.

(** ** imageUtils.ts *)

Section ImageUtils.
Context {num : Type} {N : JsNumber num} {O : JsOrder num}.
Local Open Scope js_scope.


(** The block "Calculate new dimensions" of [img.onload] in
    [compressImage]: the values of the local variables [width] and [height]
    after it, as a function of [img.width], [img.height] and the two limits.
    They are the size [drawImage] is called with; the attributes
    [canvas.width] and [canvas.height] are integers and take their integer
    parts, which are not modelled. *)
Definition compressImage_dimensions (img_width img_height maxWidth maxHeight : num)
  : num * num :=
  let width := img_width in
  let height := img_height in
  if (width >? maxWidth) || (height >? maxHeight) then
    let aspectRatio := width / height in
    if width >? height then
      let width := Math_min width maxWidth in
      let height := width / aspectRatio in
      (width, height)
    else
      let height := Math_min height maxHeight in
      let width := height * aspectRatio in
      (width, height)
  else (width, height).
End ImageUtils.

(** ** ImageWithLabels.tsx: the arithmetic of the component *)

Record Size (num : Type) : Type := { size_width : num; size_height : num }.

Section ImageWithLabels.
Context {num : Type} {N : JsNumber num} {O : JsOrder num}.
Local Open Scope js_scope.

(** [a || b] on numbers. *)
Definition js_or (a b : num) : num := if js_truthy a then a else b.

(** The effect that draws the labels: where the circle of a sample is
    drawn on the canvas, or [None] when the effect returns before drawing.
    [width] and [height] are the optional props; the canvas and its
    context are taken to exist. *)
Definition samplePosition (width height : option num) (showLabels : bool)
  (displaySize naturalSize : Size num) (sample_x sample_y : num) : option (num * num) :=
  let analyzedWidth := match width with Some w => js_or w (lit 0) | None => lit 0 end in
  let analyzedHeight := match height with Some h => js_or h (lit 0) | None => lit 0 end in
  if negb showLabels || negb (js_truthy (size_width displaySize))
     || negb (js_truthy (size_width naturalSize))
  then None
  else
    let effectiveAnalyzedWidth := js_or analyzedWidth (size_width naturalSize) in
    let effectiveAnalyzedHeight := js_or analyzedHeight (size_height naturalSize) in
    let naturalScaleX := size_width naturalSize / effectiveAnalyzedWidth in
    let naturalScaleY := size_height naturalSize / effectiveAnalyzedHeight in
    let displayScaleX := size_width displaySize / size_width naturalSize in
    let displayScaleY := size_height displaySize / size_height naturalSize in
    let scaleX := naturalScaleX * displayScaleX in
    let scaleY := naturalScaleY * displayScaleY in
    let x := sample_x * scaleX in
    let y := sample_y * scaleY in
    Some (x, y).
End ImageWithLabels.

(** [Math.round] in the number interface. *)
Class JsRound (num : Type) : Type := {
  js_round : num -> num
}.

#[export] Instance RealRound : JsRound R := {|
  js_round := fun x => IZR (Math_round x)
|}.

(** [Math.round] on doubles.  A double of magnitude [2^52] or more is an
    integer; below that, adding and subtracting [2^52] rounds to an integer,
    from which the floor follows.  The result is the floor or the floor plus
    one, the latter from the fraction one half on; a zero result has the
    sign of the argument. *)
Definition two52 : float := float_of_Z 4503599627370496.

Definition Ffloor (x : float) : float :=
  if PrimFloat.leb two52 (PrimFloat.abs x) then x
  else
    let t := if PrimFloat.ltb x PrimFloat.zero
             then PrimFloat.add (PrimFloat.sub x two52) two52
             else PrimFloat.sub (PrimFloat.add x two52) two52 in
    if PrimFloat.ltb x t then PrimFloat.sub t PrimFloat.one else t.

Definition Fround_js (x : float) : float :=
  let f := Ffloor x in
  if PrimFloat.is_nan x || PrimFloat.eqb f x then x
  else
    let r := if PrimFloat.leb (float_lit 0.5) (PrimFloat.sub x f)
             then PrimFloat.add f PrimFloat.one else f in
    if PrimFloat.eqb r PrimFloat.zero
    then (if PrimFloat.ltb x PrimFloat.zero
          then PrimFloat.opp PrimFloat.zero else PrimFloat.zero)
    else r.

Definition FloatRound : JsRound float := {| js_round := Fround_js |}.

Section ImageClick.
Context {num : Type} {N : JsNumber num} {Rd : JsRound num}.
Local Open Scope js_scope.

(** [handleImageClick]: the pixel whose colour is read, from the position
    of the click, the rectangle of the displayed image and the natural size
    of the image.  The handler and the canvas context are taken to exist. *)
Definition handleImageClick (clientX clientY rect_left rect_top rect_width rect_height
  naturalWidth naturalHeight : num) : num * num :=
  let x := clientX - rect_left in
  let y := clientY - rect_top in
  let scaleX := naturalWidth / rect_width in
  let scaleY := naturalHeight / rect_height in
  let naturalX := js_round (x * scaleX) in
  let naturalY := js_round (y * scaleY) in
  (naturalX, naturalY).
End ImageClick.

(** ** api.ts *)

(** Strings of the source are sequences of code units; the functions
    below are those of [String.prototype] on them. *)

(** [s.endsWith(suffix)]: some tail of [s] is [suffix]. *)
Fixpoint endsWith (s suffix : string) : bool :=
  String.eqb s suffix ||
  match s with
  | EmptyString => false
  | String _ rest => endsWith rest suffix
  end.

(** [s.includes(sub)]: some tail of [s] starts with [sub]. *)
Fixpoint includes (s sub : string) : bool :=
  String.prefix sub s ||
  match s with
  | EmptyString => false
  | String _ rest => includes rest sub
  end.

(** [s.replace(/\/$/, '')]: a slash at the very end is dropped. *)
Fixpoint dropTrailingSlash (s : string) : string :=
  match s with
  | EmptyString => EmptyString
  | String c rest =>
      if Ascii.eqb c "/" && String.eqb rest EmptyString then EmptyString
      else String c (dropTrailingSlash rest)
  end.

(** [s.replace('#', '')]: the first [#] is dropped, wherever it is. *)
Fixpoint dropFirstHash (s : string) : string :=
  match s with
  | EmptyString => EmptyString
  | String c rest => if Ascii.eqb c "#" then rest else String c (dropFirstHash rest)
  end.

(** A string used as a condition. *)
Definition truthy (s : string) : bool := negb (String.eqb s EmptyString).

(** What [getApiBase] reads: [window] (absent outside a browser) with the
    injected [__CONFIG__.API_BASE] and [location.hostname], and the build
    variable [VITE_API_BASE]. *)
Record Window : Type := {
  CONFIG_API_BASE : option string;
  location_hostname : string
}.

Record Env : Type := {
  window : option Window;
  VITE_API_BASE : option string
}.

(* if (typeof window !== 'undefined' && window.__CONFIG__?.API_BASE) *)
Definition injectedBase (env : Env) : option string :=
  match window env with
  | Some w =>
      match CONFIG_API_BASE w with
      | Some base => if truthy base then Some base else None
      | None => None
      end
  | None => None
  end.

(* if (import.meta.env.VITE_API_BASE) *)
Definition buildBase (env : Env) : option string :=
  match VITE_API_BASE env with
  | Some base => if truthy base then Some base else None
  | None => None
  end.

Definition getApiBase (env : Env) : string :=
  match injectedBase env with
  | Some base => base
  | None =>
      match buildBase env with
      | Some base => base
      | None =>
          match window env with
          | Some w =>
              let isDev := String.eqb (location_hostname w) "localhost"
                           || String.eqb (location_hostname w) "127.0.0.1" in
              if negb isDev then EmptyString else "http://localhost:8000"
          | None => "http://localhost:8000"
          end
      end
  end.

Definition getApiPath (env : Env) : string :=
  let apiBase := getApiBase env in
  if endsWith apiBase "/api" then apiBase
  else dropTrailingSlash apiBase ++ "/api".

(** [getColorName]: the URL that is fetched. *)
Definition getColorName_hexClean (hex : string) : string := dropFirstHash hex.

Definition getColorName_url (env : Env) (hex : string) : string :=
  let hexClean := getColorName_hexClean hex in
  let apiPath := getApiPath env in
  apiPath ++ "/name?hex=" ++ hexClean.

(** [s.trim()]: white space and line terminators, among the code units
    below 256, are the codes 9 to 13, 32 and 160. *)
Definition isWhiteSpace (c : ascii) : bool :=
  let n := charCode c in
  ((9 <=? n) && (n <=? 13)) || (n =? 32) || (n =? 160).

Fixpoint trimStart (s : string) : string :=
  match s with
  | EmptyString => EmptyString
  | String c rest => if isWhiteSpace c then trimStart rest else s
  end.

Fixpoint trimEnd (s : string) : string :=
  match s with
  | EmptyString => EmptyString
  | String c rest =>
      let rest' := trimEnd rest in
      if isWhiteSpace c && String.eqb rest' EmptyString then EmptyString
      else String c rest'
  end.

Definition trim (s : string) : string := trimEnd (trimStart s).

(** [analyzeImage]: the name and the type of the file that is appended to
    the form, from [file.name] and [file.type]. *)
Definition analyzeImage_fileName (file_name file_type : string) : string :=
  let fileName := if truthy file_name then file_name else "image" in
  if negb (truthy fileName) || String.eqb fileName "image" || negb (includes fileName ".")
  then
    if truthy file_type then
      if includes file_type "jpeg" || includes file_type "jpg" then "image.jpg"
      else if includes file_type "png" then "image.png"
      else "image.jpg"
    else "image.jpg"
  else fileName.

Definition analyzeImage_fileToUpload (file_name file_type : string) : string * string :=
  let fileName := analyzeImage_fileName file_name file_type in
  if truthy file_name && truthy (trim file_name) then (file_name, file_type)
  else (fileName, if truthy file_type then file_type else "image/jpeg").
(** * Proofs *)

Unset Implicit Arguments.

(** ** Reading the generic code over the reals *)

(** Decimal literals as quotients of integers. *)
Ltac q2r := unfold Q2R; cbn [Qnum Qden].

Lemma Rltb_true_iff (x y : R) : Rltb x y = true <-> (x < y)%R.
Proof.
  unfold Rltb. destruct (Rlt_dec x y); split; intros;
    try assumption; try reflexivity; try discriminate; contradiction.
Qed.

Lemma Rltb_false_iff (x y : R) : Rltb x y = false <-> (y <= x)%R.
Proof.
  unfold Rltb. destruct (Rlt_dec x y); split; intros;
    try reflexivity; try discriminate; lra.
Qed.

Lemma Rgtb_true (x y : R) : (x > y)%R -> Rgtb x y = true.
Proof. intros Hxy. unfold Rgtb. destruct (Rgt_dec x y); [reflexivity | contradiction]. Qed.

Lemma Rgtb_false (x y : R) : (x <= y)%R -> Rgtb x y = false.
Proof. intros Hxy. unfold Rgtb. destruct (Rgt_dec x y); [lra | reflexivity]. Qed.

Lemma Rpower_two (x : R) : (0 < x)%R -> Rpower x 2 = (x * x)%R.
Proof.
  intros Hx. change 2%R with (INR 2). rewrite Rpower_pow by assumption. simpl. ring.
Qed.

Lemma Rpow_js_pos (x y : R) : (0 < x)%R -> Rpow_js x y = Rpower x y.
Proof.
  intros Hx. unfold Rpow_js. destruct (Req_dec_T y 2) as [-> | _]; [| reflexivity].
  symmetry. apply Rpower_two. exact Hx.
Qed.

Lemma Rpow_js_two (x : R) : Rpow_js x 2 = (x * x)%R.
Proof.
  unfold Rpow_js.
  destruct (Req_dec_T 2 2) as [_ | Hne]; [reflexivity | contradiction Hne; reflexivity].
Qed.

Lemma Q2R_two : Q2R 2 = 2%R.
Proof. unfold Q2R. simpl. lra. Qed.

Lemma Q2R_one : Q2R 1 = 1%R.
Proof. unfold Q2R. simpl. lra. Qed.

(** [deltaE2000] over the reals, with [Math.pow (_, 2)] read as a square. *)
Lemma deltaE2000_real (lab1 lab2 : LAB R) :
  deltaE2000 lab1 lab2 =
  (let c1 := sqrt (lab_a lab1 * lab_a lab1 + lab_b lab1 * lab_b lab1) in
   let c2 := sqrt (lab_a lab2 * lab_a lab2 + lab_b lab2 * lab_b lab2) in
   let dh := sqrt (hueRadicand lab1 lab2) in
   sqrt (Rsqr (lab_l lab1 - lab_l lab2) +
         Rsqr ((c1 - c2) / (1 + 0.045 * c1)) +
         Rsqr (dh / (1 + 0.015 * c1))))%R.
Proof.
  unfold deltaE2000, hueRadicand. cbn -[Q2R].
  rewrite Q2R_two, Q2R_one, !Rpow_js_two. unfold Rsqr.
  f_equal. f_equal. f_equal. field.
Qed.

(** *** Symmetry of [deltaE2000] (exact arithmetic) *)

Lemma Rsqr_div_weight_le (x s t : R) :
  (0 < s)%R -> (s <= t)%R -> (Rsqr (x / t) <= Rsqr (x / s))%R.
Proof.
  intros Hs Hst.
  rewrite !Rsqr_div' .
  assert (Hs2 : (0 < Rsqr s)%R) by (apply Rsqr_pos_lt; lra).
  assert (Hst2 : (Rsqr s <= Rsqr t)%R) by (apply Rsqr_incr_1; lra).
  assert (Hx : (0 <= Rsqr x)%R) by apply Rle_0_sqr.
  unfold Rdiv. apply Rmult_le_compat_l; [assumption |].
  apply Rinv_le_contravar; assumption.
Qed.

Lemma hueRadicand_sym (p q : LAB R) : hueRadicand p q = hueRadicand q p.
Proof. unfold hueRadicand. cbn. ring. Qed.

Lemma deltaE2000_chroma_eq (p q : LAB R) :
  chroma p = chroma q -> deltaE2000 p q = deltaE2000 q p.
Proof.
  intros Heq. rewrite !deltaE2000_real. cbv zeta.
  rewrite (hueRadicand_sym q p).
  unfold chroma in Heq. cbn in Heq. rewrite Heq.
  rewrite (Rsqr_neg_minus (lab_l p) (lab_l q)).
  reflexivity.
Qed.

(** *** Symmetry of [deltaE2000] (binary64)

    Swapping the operands of a correctly rounded subtraction changes the
    sign of the result and nothing else (or nothing at all, when the result
    is a zero or [NaN]); products of a number with itself, and quotients up
    to their sign, do not see the swap. *)

Section SpecFloatSigns.
Variables prec emax : Z.

Lemma binary_round_aux_negb (s : bool) (m e : Z) (l : SpecFloat.location) :
  SpecFloat.binary_round_aux prec emax (negb s) m e l =
  SpecFloat.SFopp (SpecFloat.binary_round_aux prec emax s m e l).
Proof.
  unfold SpecFloat.binary_round_aux.
  destruct (SpecFloat.shr_fexp prec emax m e l) as [mrs' e'].
  destruct (SpecFloat.shr_fexp prec emax _ e' SpecFloat.loc_Exact) as [mrs'' e''].
  destruct (SpecFloat.shr_m mrs'') as [| p | p]; [reflexivity | | reflexivity].
  destruct (Z.leb e'' (Z.sub emax prec)); reflexivity.
Qed.

Lemma binary_round_negb (s : bool) (m : positive) (e : Z) :
  SpecFloat.binary_round prec emax (negb s) m e =
  SpecFloat.SFopp (SpecFloat.binary_round prec emax s m e).
Proof.
  unfold SpecFloat.binary_round. destruct (SpecFloat.shl_align m e _) as [mz ez].
  apply binary_round_aux_negb.
Qed.

Lemma binary_normalize_opp (m e : Z) :
  SpecFloat.binary_normalize prec emax (Z.opp m) e false =
    SpecFloat.SFopp (SpecFloat.binary_normalize prec emax m e false) \/
  SpecFloat.binary_normalize prec emax (Z.opp m) e false =
    SpecFloat.binary_normalize prec emax m e false.
Proof.
  destruct m as [| p | p]; cbn [Z.opp SpecFloat.binary_normalize].
  - right. reflexivity.
  - left. apply (binary_round_negb false).
  - left. change false with (negb true) at 1.
    rewrite binary_round_negb.
    destruct (SpecFloat.binary_round prec emax true p e); cbn;
      rewrite ?negb_involutive; reflexivity.
Qed.

Lemma SFsub_swap (x y : SpecFloat.spec_float) :
  SpecFloat.SFsub prec emax y x = SpecFloat.SFopp (SpecFloat.SFsub prec emax x y) \/
  SpecFloat.SFsub prec emax y x = SpecFloat.SFsub prec emax x y.
Proof.
  destruct x as [sx | sx | | sx mx ex], y as [sy | sy | | sy my ey];
    try (destruct sx, sy; cbn; auto; fail);
    try (destruct sx; cbn; auto; fail);
    try (destruct sy; cbn; auto; fail);
    try (cbn; auto; fail).
  cbn [SpecFloat.SFsub]. rewrite (Z.min_comm ey ex).
  set (A := SpecFloat.cond_Zopp sx
              (Zpos (fst (SpecFloat.shl_align mx ex (Z.min ex ey))))).
  set (B := SpecFloat.cond_Zopp sy
              (Zpos (fst (SpecFloat.shl_align my ey (Z.min ex ey))))).
  replace (Z.sub B A) with (Z.opp (Z.sub A B)) by lia.
  apply binary_normalize_opp.
Qed.

Lemma SFmul_opp_opp (a : SpecFloat.spec_float) :
  SpecFloat.SFmul prec emax (SpecFloat.SFopp a) (SpecFloat.SFopp a) =
  SpecFloat.SFmul prec emax a a.
Proof. destruct a as [s | s | | s m e]; try destruct s; reflexivity. Qed.

Lemma SFdiv_opp_l (a b : SpecFloat.spec_float) :
  SpecFloat.SFdiv prec emax (SpecFloat.SFopp a) b =
  SpecFloat.SFopp (SpecFloat.SFdiv prec emax a b).
Proof.
  destruct a as [sa | sa | | sa ma ea], b as [sb | sb | | sb mb eb];
    try (destruct sa, sb; reflexivity); try (destruct sa; reflexivity);
    try (destruct sb; reflexivity); try reflexivity.
  cbn [SpecFloat.SFdiv SpecFloat.SFopp].
  destruct (SpecFloat.SFdiv_core_binary prec emax (Zpos ma) ea (Zpos mb) eb)
    as [[mz ez] lz].
  replace (xorb (negb sa) sb) with (negb (xorb sa sb)) by (destruct sa, sb; reflexivity).
  apply binary_round_aux_negb.
Qed.

Lemma SFeqb_opp_self (a : SpecFloat.spec_float) :
  SpecFloat.SFeqb (SpecFloat.SFopp a) (SpecFloat.SFopp a) = SpecFloat.SFeqb a a.
Proof.
  destruct a as [s | s | | s m e]; try destruct s; try reflexivity;
    unfold SpecFloat.SFeqb; cbn; rewrite Z.compare_refl, Pos.compare_cont_refl;
    reflexivity.
Qed.
End SpecFloatSigns.

Lemma float_sub_swap (x y : float) :
  PrimFloat.sub y x = PrimFloat.opp (PrimFloat.sub x y) \/
  PrimFloat.sub y x = PrimFloat.sub x y.
Proof.
  destruct (SFsub_swap FloatOps.prec FloatOps.emax (FloatOps.Prim2SF x) (FloatOps.Prim2SF y))
    as [H | H].
  - left. apply FloatAxioms.Prim2SF_inj.
    rewrite FloatAxioms.opp_spec, !FloatAxioms.sub_spec. exact H.
  - right. apply FloatAxioms.Prim2SF_inj. rewrite !FloatAxioms.sub_spec. exact H.
Qed.

Lemma float_mul_opp_opp (a : float) :
  PrimFloat.mul (PrimFloat.opp a) (PrimFloat.opp a) = PrimFloat.mul a a.
Proof.
  apply FloatAxioms.Prim2SF_inj.
  rewrite !FloatAxioms.mul_spec, !FloatAxioms.opp_spec. apply SFmul_opp_opp.
Qed.

Lemma float_div_opp_l (a b : float) :
  PrimFloat.div (PrimFloat.opp a) b = PrimFloat.opp (PrimFloat.div a b).
Proof.
  apply FloatAxioms.Prim2SF_inj.
  rewrite FloatAxioms.opp_spec, !FloatAxioms.div_spec, FloatAxioms.opp_spec.
  apply SFdiv_opp_l.
Qed.

Lemma float_is_nan_opp (a : float) :
  PrimFloat.is_nan (PrimFloat.opp a) = PrimFloat.is_nan a.
Proof.
  unfold PrimFloat.is_nan.
  rewrite !FloatAxioms.eqb_spec, FloatAxioms.opp_spec, SFeqb_opp_self. reflexivity.
Qed.

(** The square of a difference does not depend on the order of the
    operands. *)
Lemma float_sq_sub_swap (x y : float) :
  PrimFloat.mul (PrimFloat.sub y x) (PrimFloat.sub y x) =
  PrimFloat.mul (PrimFloat.sub x y) (PrimFloat.sub x y).
Proof.
  destruct (float_sub_swap x y) as [-> | ->]; [apply float_mul_opp_opp | reflexivity].
Qed.

(** [Math.pow(d / s, 2)] with [d] a difference does not depend on the order
    of the operands either, when the approximated part of [Math.pow] gives
    squares that do not depend on the sign of the base. *)
Lemma Fpow_js_sub_swap (approx_pow : float -> float -> float) (x y s : float) :
  (forall z, approx_pow (PrimFloat.opp z) (float_lit 2) = approx_pow z (float_lit 2)) ->
  Fpow_js approx_pow (PrimFloat.div (PrimFloat.sub y x) s) (float_lit 2) =
  Fpow_js approx_pow (PrimFloat.div (PrimFloat.sub x y) s) (float_lit 2).
Proof.
  intros Heven. destruct (float_sub_swap x y) as [-> | ->]; [| reflexivity].
  rewrite float_div_opp_l. unfold Fpow_js.
  rewrite float_is_nan_opp, Heven. reflexivity.
Qed.

Lemma deltaE2000_float_chroma_eq (approx_pow : float -> float -> float)
  (p q : LAB float) :
  (forall z, approx_pow (PrimFloat.opp z) (float_lit 2) = approx_pow z (float_lit 2)) ->
  chroma (H := FloatNumber approx_pow) p = chroma (H := FloatNumber approx_pow) q ->
  deltaE2000 (H := FloatNumber approx_pow) p q =
  deltaE2000 (H := FloatNumber approx_pow) q p.
Proof.
  intros Heven Hc. unfold deltaE2000. unfold chroma in Hc.
  cbn [lit js_add js_sub js_mul js_div Math_sqrt Math_pow FloatNumber] in *.
  rewrite <- Hc.
  rewrite (float_sq_sub_swap (lab_a p) (lab_a q)), (float_sq_sub_swap (lab_b p) (lab_b q)).
  rewrite (Fpow_js_sub_swap approx_pow (lab_l p) (lab_l q) _ Heven).
  reflexivity.
Qed.

(** C2 (as amended).  [deltaE2000] gives the same distance in both orders
    for two colours of the same chroma: in exact arithmetic, and also in
    binary64, to the last bit, whenever the squares computed by [Math.pow]
    do not depend on the sign of the base.  The chroma and hue terms are
    weighted by the chroma of the first argument only, which is why colours
    of different chroma are not covered. *)
Theorem deltaE2000_symmetric_on_equal_chroma :
  (forall p q : LAB R, chroma p = chroma q -> deltaE2000 p q = deltaE2000 q p) /\
  (forall (approx_pow : float -> float -> float) (p q : LAB float),
      (forall z, approx_pow (PrimFloat.opp z) (float_lit 2) = approx_pow z (float_lit 2)) ->
      chroma (H := FloatNumber approx_pow) p = chroma (H := FloatNumber approx_pow) q ->
      deltaE2000 (H := FloatNumber approx_pow) p q =
      deltaE2000 (H := FloatNumber approx_pow) q p).
Proof.
  split.
  - exact deltaE2000_chroma_eq.
  - intros approx_pow p q Heven Hc.
    exact (deltaE2000_float_chroma_eq approx_pow p q Heven Hc).
Qed.

(** Two colours of chroma 5, in exact arithmetic and in binary64 with
    [Math.pow(x, 2)] computed as [x * x]. *)
Lemma deltaE2000_symmetric_on_equal_chroma_witness :
  deltaE2000 (labOf 50 3 4 : LAB R) (labOf 20 4 (-3)) =
    deltaE2000 (labOf 20 4 (-3) : LAB R) (labOf 50 3 4) /\
  deltaE2000 (H := FloatNumber (fun x _ => PrimFloat.mul x x))
      (labOf (H := FloatNumber (fun x _ => PrimFloat.mul x x)) 50 3 4)
      (labOf (H := FloatNumber (fun x _ => PrimFloat.mul x x)) 20 4 (-3)) =
    deltaE2000 (H := FloatNumber (fun x _ => PrimFloat.mul x x))
      (labOf (H := FloatNumber (fun x _ => PrimFloat.mul x x)) 20 4 (-3))
      (labOf (H := FloatNumber (fun x _ => PrimFloat.mul x x)) 50 3 4).
Proof.
  split.
  - apply (proj1 deltaE2000_symmetric_on_equal_chroma).
    unfold chroma, labOf. cbn. f_equal. q2r. lra.
  - apply (proj2 deltaE2000_symmetric_on_equal_chroma (fun x _ => PrimFloat.mul x x)).
    + intros z. apply float_mul_opp_opp.
    + vm_compute. reflexivity.
Defined.

(** C2 (as stated) fails: with [p = (0, 10, 0)] and [q = (0, 0, 0)] the
    distance from [p] to [q] is [10 / 1.45] and the distance from [q] to [p]
    is [10]. *)
Lemma deltaE2000_not_symmetric :
  let p : LAB R := labOf 0 10 0 in
  let q : LAB R := labOf 0 0 0 in
  deltaE2000 p q = (200 / 29)%R /\ deltaE2000 q p = 10%R /\
  (Rabs (deltaE2000 p q - deltaE2000 q p) > 3)%R.
Proof.
  cbv zeta.
  assert (Hpq : deltaE2000 (labOf 0 10 0 : LAB R) (labOf 0 0 0) = (200 / 29)%R).
  { rewrite deltaE2000_real. unfold hueRadicand, labOf. cbn. q2r.
    assert (E1 : sqrt (10 * / 1 * (10 * / 1) + 0 * / 1 * (0 * / 1)) = 10%R)
      by (apply sqrt_lem_1; lra).
    assert (E0 : sqrt (0 * / 1 * (0 * / 1) + 0 * / 1 * (0 * / 1)) = 0%R)
      by (apply sqrt_lem_1; lra).
    rewrite E1, E0.
    assert (Eh : sqrt ((10 * / 1 - 0 * / 1) * (10 * / 1 - 0 * / 1) +
                       (0 * / 1 - 0 * / 1) * (0 * / 1 - 0 * / 1) -
                       (10 - 0) * (10 - 0)) = 0%R)
      by (apply sqrt_lem_1; lra).
    rewrite Eh.
    apply sqrt_lem_1; unfold Rsqr; lra. }
  assert (Hqp : deltaE2000 (labOf 0 0 0 : LAB R) (labOf 0 10 0) = 10%R).
  { rewrite deltaE2000_real. unfold hueRadicand, labOf. cbn. q2r.
    assert (E1 : sqrt (10 * / 1 * (10 * / 1) + 0 * / 1 * (0 * / 1)) = 10%R)
      by (apply sqrt_lem_1; lra).
    assert (E0 : sqrt (0 * / 1 * (0 * / 1) + 0 * / 1 * (0 * / 1)) = 0%R)
      by (apply sqrt_lem_1; lra).
    rewrite E1, E0.
    assert (Eh : sqrt ((0 * / 1 - 10 * / 1) * (0 * / 1 - 10 * / 1) +
                       (0 * / 1 - 0 * / 1) * (0 * / 1 - 0 * / 1) -
                       (0 - 10) * (0 - 10)) = 0%R)
      by (apply sqrt_lem_1; lra).
    rewrite Eh.
    apply sqrt_lem_1; unfold Rsqr; lra. }
  rewrite Hpq, Hqp. repeat split.
  unfold Rabs. destruct (Rcase_abs (200 / 29 - 10)); lra.
Qed.

(** *** The square roots of [deltaE2000] *)

Lemma cauchy_schwarz_plane (a1 b1 a2 b2 : R) :
  (a1 * a2 + b1 * b2 <= sqrt (a1 * a1 + b1 * b1) * sqrt (a2 * a2 + b2 * b2))%R.
Proof.
  assert (H1 : (0 <= a1 * a1 + b1 * b1)%R) by nra.
  assert (H2 : (0 <= a2 * a2 + b2 * b2)%R) by nra.
  rewrite <- sqrt_mult by assumption.
  destruct (Rle_lt_dec (a1 * a2 + b1 * b2) 0) as [Hneg | Hpos].
  - pose proof (sqrt_pos ((a1 * a1 + b1 * b1) * (a2 * a2 + b2 * b2))). lra.
  - apply Rsqr_incr_0_var; [| apply sqrt_pos].
    rewrite Rsqr_sqrt by (apply Rmult_le_pos; assumption).
    unfold Rsqr.
    pose proof (Rle_0_sqr (a1 * b2 - a2 * b1)) as Hsq. unfold Rsqr in Hsq.
    lra.
Qed.

(** In exact arithmetic the argument of the square root for [dh] is never
    negative (the reverse triangle inequality in the (a, b) plane). *)
Lemma hueRadicand_nonneg_real (p q : LAB R) : (0 <= hueRadicand p q)%R.
Proof.
  unfold hueRadicand. cbn.
  assert (H1 : (0 <= lab_a p * lab_a p + lab_b p * lab_b p)%R) by nra.
  assert (H2 : (0 <= lab_a q * lab_a q + lab_b q * lab_b q)%R) by nra.
  pose proof (sqrt_sqrt _ H1) as Hs1.
  pose proof (sqrt_sqrt _ H2) as Hs2.
  pose proof (cauchy_schwarz_plane (lab_a p) (lab_b p) (lab_a q) (lab_b q)) as Hcs.
  lra.
Qed.

Lemma deltaE2000_nonneg_real (p q : LAB R) : (0 <= deltaE2000 p q)%R.
Proof. rewrite deltaE2000_real. cbv zeta. apply sqrt_pos. Qed.

(** *** Machine arithmetic *)

Lemma float_add_nan_r (x : float) : PrimFloat.add x PrimFloat.nan = PrimFloat.nan.
Proof.
  apply FloatAxioms.Prim2SF_inj. rewrite FloatAxioms.add_spec.
  destruct (FloatOps.Prim2SF x); reflexivity.
Qed.

(** C10 at a failing input.  For [lab1 = (0, 1, 1)] and [lab2 = (0, 2, 2)]
    the doubles are [c1 = sqrt 2], [c2 = 2 * c1] and [dc * dc] rounds to
    [2.0000000000000004], so the argument of the square root for [dh] is
    [-4.44e-16]: [dh] is [NaN], and so is the returned distance, whatever
    the engine's [Math.pow] does on numbers. *)
Theorem deltaE2000_float_nan (approx_pow : float -> float -> float) :
  let N := FloatNumber approx_pow in
  let lab1 : LAB float := labOf 0 1 1 in
  let lab2 : LAB float := labOf 0 2 2 in
  PrimFloat.ltb (hueRadicand lab1 lab2) PrimFloat.zero = true /\
  PrimFloat.is_nan (deltaE2000 lab1 lab2) = true.
Proof.
  cbv zeta. split.
  - vm_compute. reflexivity.
  - unfold deltaE2000, labOf.
    cbn [lab_l lab_a lab_b lit js_add js_sub js_mul js_div Math_sqrt Math_pow FloatNumber].
    match goal with
    | |- PrimFloat.is_nan (PrimFloat.sqrt (PrimFloat.add _ ?t)) = true =>
        replace t with PrimFloat.nan by (vm_compute; reflexivity)
    end.
    rewrite float_add_nan_r. vm_compute. reflexivity.
Qed.

(** ** The hex pattern *)

Lemma hexClass_alphabet (c : ascii) : hexClass c = true <-> In c hexAlphabet.
Proof.
  assert (Hb : hexClass c = existsb (Ascii.eqb c) hexAlphabet).
  { destruct c as [b0 b1 b2 b3 b4 b5 b6 b7].
    destruct b0, b1, b2, b3, b4, b5, b6, b7; vm_compute; reflexivity. }
  rewrite Hb, existsb_exists. split.
  - intros [x [Hin Heq]]. apply Ascii.eqb_eq in Heq. subst x. exact Hin.
  - intros Hin. exists c. split; [exact Hin | apply Ascii.eqb_refl].
Qed.

Lemma hexClass_digit16 (c : ascii) :
  hexClass c = true -> exists d, digit16 c = Some d /\ 0 <= d <= 15.
Proof.
  unfold hexClass, digit16. cbv zeta.
  destruct ((48 <=? charCode c) && (charCode c <=? 57)) eqn:E1.
  { intros _. exists (charCode c - 48). split; [reflexivity | lia]. }
  destruct ((97 <=? charCode c) && (charCode c <=? 102)) eqn:E2.
  { intros _. exists (charCode c - 87). split; [reflexivity | lia]. }
  destruct ((65 <=? charCode c) && (charCode c <=? 70)) eqn:E3.
  { intros _. exists (charCode c - 55). split; [reflexivity | lia]. }
  simpl. discriminate.
Qed.

Lemma hexClass_hash : hexClass "#" = false.
Proof. reflexivity. Qed.

Lemma hexGroup_Some (s g rest : string) :
  hexGroup s = Some (g, rest) <->
  exists c1 c2, s = String c1 (String c2 rest) /\
                g = String c1 (String c2 EmptyString) /\
                hexClass c1 = true /\ hexClass c2 = true.
Proof.
  split.
  - destruct s as [| c1 [| c2 tl]]; simpl; try discriminate.
    destruct (hexClass c1) eqn:H1; destruct (hexClass c2) eqn:H2; simpl; try discriminate.
    intros Heq. inversion Heq; subst. exists c1, c2. repeat split; assumption.
  - intros (c1 & c2 & -> & -> & H1 & H2). simpl. rewrite H1, H2. reflexivity.
Qed.

Lemma hexPatternExec_Some (s : string) (gs : string * string * string) :
  hexPatternExec s = Some gs <->
  exists c1 c2 c3 c4 c5 c6,
    stripHash s = sixOf c1 c2 c3 c4 c5 c6 /\
    gs = (String c1 (String c2 EmptyString),
          String c3 (String c4 EmptyString),
          String c5 (String c6 EmptyString)) /\
    Forall (fun c => hexClass c = true) [c1; c2; c3; c4; c5; c6].
Proof.
  unfold hexPatternExec. split.
  - destruct (hexGroup (stripHash s)) as [[g1 r1] |] eqn:E1; [| discriminate].
    destruct (hexGroup r1) as [[g2 r2] |] eqn:E2; [| discriminate].
    destruct (hexGroup r2) as [[g3 r3] |] eqn:E3; [| discriminate].
    destruct r3; [| discriminate].
    intros Heq. inversion Heq; subst gs. clear Heq.
    apply hexGroup_Some in E1. destruct E1 as (c1 & c2 & Hs & -> & H1 & H2).
    apply hexGroup_Some in E2. destruct E2 as (c3 & c4 & -> & -> & H3 & H4).
    apply hexGroup_Some in E3. destruct E3 as (c5 & c6 & -> & -> & H5 & H6).
    exists c1, c2, c3, c4, c5, c6. repeat split; [exact Hs |].
    repeat constructor; assumption.
  - intros (c1 & c2 & c3 & c4 & c5 & c6 & Hs & -> & Hall).
    rewrite Hs. unfold sixOf.
    repeat match goal with
           | H : Forall _ (_ :: _) |- _ => inversion H; subst; clear H
           end.
    simpl.
    repeat match goal with
           | H : hexClass _ = true |- _ => rewrite H; clear H; simpl
           end.
    reflexivity.
Qed.

Lemma sixHexDigits_sixOf (body : string) :
  sixHexDigits body <->
  exists c1 c2 c3 c4 c5 c6,
    body = sixOf c1 c2 c3 c4 c5 c6 /\
    Forall (fun c => hexClass c = true) [c1; c2; c3; c4; c5; c6].
Proof.
  unfold sixHexDigits. split.
  - intros [Hlen Hall].
    destruct body as [| c1 [| c2 [| c3 [| c4 [| c5 [| c6 [| c7 tl]]]]]]];
      simpl in Hlen; try discriminate.
    exists c1, c2, c3, c4, c5, c6. split; [reflexivity |].
    simpl in Hall. eapply Forall_impl; [| exact Hall].
    intros c Hc. apply hexClass_alphabet. exact Hc.
  - intros (c1 & c2 & c3 & c4 & c5 & c6 & -> & Hall). split; [reflexivity |].
    simpl. eapply Forall_impl; [| exact Hall].
    intros c Hc. apply hexClass_alphabet. exact Hc.
Qed.

Lemma stripHash_sixOf (s : string) (c1 c2 c3 c4 c5 c6 : ascii) :
  hexClass c1 = true ->
  (stripHash s = sixOf c1 c2 c3 c4 c5 c6 <->
   s = sixOf c1 c2 c3 c4 c5 c6 \/ s = String "#" (sixOf c1 c2 c3 c4 c5 c6)).
Proof.
  intros H1. split.
  - destruct s as [| c tl]; simpl; [discriminate |].
    destruct (Ascii.eqb c "#") eqn:E.
    + apply Ascii.eqb_eq in E. subst c. intros ->. right. reflexivity.
    + intros Heq. left. exact Heq.
  - intros [-> | ->].
    + unfold sixOf. simpl. destruct (Ascii.eqb c1 "#") eqn:E; [| reflexivity].
      apply Ascii.eqb_eq in E. subst c1. discriminate H1.
    + reflexivity.
Qed.

(** The pattern accepts exactly the well-formed strings. *)
Lemma hexPatternExec_wellFormed (s : string) :
  (exists gs, hexPatternExec s = Some gs) <-> wellFormedHex s.
Proof.
  split.
  - intros [gs Hgs]. apply hexPatternExec_Some in Hgs.
    destruct Hgs as (c1 & c2 & c3 & c4 & c5 & c6 & Hs & _ & Hall).
    assert (H1 : hexClass c1 = true) by (inversion Hall; assumption).
    apply (stripHash_sixOf s c1 c2 c3 c4 c5 c6 H1) in Hs.
    destruct Hs as [-> | ->].
    + left. apply sixHexDigits_sixOf. exists c1, c2, c3, c4, c5, c6. auto.
    + right. eexists. split; [reflexivity |].
      apply sixHexDigits_sixOf. exists c1, c2, c3, c4, c5, c6. auto.
  - intros [Hsix | [body [-> Hsix]]];
      apply sixHexDigits_sixOf in Hsix;
      destruct Hsix as (c1 & c2 & c3 & c4 & c5 & c6 & -> & Hall);
      assert (H1 : hexClass c1 = true) by (inversion Hall; assumption);
      eexists; apply hexPatternExec_Some;
      exists c1, c2, c3, c4, c5, c6; (split; [| split; [reflexivity | exact Hall]]);
      apply stripHash_sixOf; auto.
Qed.

Lemma parseInt16_pair (c1 c2 : ascii) :
  hexClass c1 = true -> hexClass c2 = true ->
  parseInt16 (String c1 (String c2 EmptyString)) = Some (pairValue c1 c2) /\
  0 <= pairValue c1 c2 <= 255.
Proof.
  intros H1 H2.
  destruct (hexClass_digit16 c1 H1) as (d1 & E1 & B1).
  destruct (hexClass_digit16 c2 H2) as (d2 & E2 & B2).
  unfold parseInt16, pairValue. cbn [parseDigits16]. rewrite E1. cbn [parseDigits16].
  rewrite E2. split; [f_equal; lia | lia].
Qed.

(** A matched input always parses: no group is [NaN]. *)
Lemma parseGroups_total (s : string) (gs : string * string * string) :
  hexPatternExec s = Some gs ->
  exists c1 c2 c3 c4 c5 c6,
    stripHash s = sixOf c1 c2 c3 c4 c5 c6 /\
    parseGroups gs = Some (pairValue c1 c2, pairValue c3 c4, pairValue c5 c6) /\
    0 <= pairValue c1 c2 <= 255 /\ 0 <= pairValue c3 c4 <= 255 /\
    0 <= pairValue c5 c6 <= 255.
Proof.
  intros Hgs. apply hexPatternExec_Some in Hgs.
  destruct Hgs as (c1 & c2 & c3 & c4 & c5 & c6 & Hs & -> & Hall).
  repeat match goal with
         | H : Forall _ (_ :: _) |- _ => inversion H; subst; clear H
         end.
  exists c1, c2, c3, c4, c5, c6. split; [exact Hs |].
  destruct (parseInt16_pair c1 c2) as [P1 B1]; try assumption.
  destruct (parseInt16_pair c3 c4) as [P2 B2]; try assumption.
  destruct (parseInt16_pair c5 c6) as [P3 B3]; try assumption.
  unfold parseGroups. rewrite P1, P2, P3. auto.
Qed.

(** ** The scan of [findNearestColorName] *)

Local Open Scope list_scope.

Section FirstMinimizer.
Context {A : Type} (f : A -> R).

Lemma firstMinimizer_single (x : A) : firstMinimizer f [x] x.
Proof.
  exists 0%nat. split; [reflexivity |]. split.
  - intros j e Hj. destruct j as [| j]; simpl in Hj.
    + inversion Hj. lra.
    + destruct j; discriminate.
  - intros j e Hj. lia.
Qed.

Lemma nth_error_snoc (p : list A) (x e : A) (j : nat) :
  nth_error (p ++ [x]) j = Some e ->
  ((j < List.length p)%nat /\ nth_error p j = Some e) \/ (j = List.length p /\ e = x).
Proof.
  intros Hj. destruct (Nat.lt_ge_cases j (List.length p)) as [Hlt | Hge].
  - left. split; [exact Hlt |]. rewrite nth_error_app1 in Hj; assumption.
  - right. rewrite nth_error_app2 in Hj by exact Hge.
    destruct (j - List.length p)%nat as [| k] eqn:Ek; simpl in Hj.
    + inversion Hj. split; [lia | reflexivity].
    + destruct k; discriminate.
Qed.

Lemma firstMinimizer_keep (p : list A) (c x : A) :
  firstMinimizer f p c -> (f c <= f x)%R -> firstMinimizer f (p ++ [x]) c.
Proof.
  intros (i & Hi & Hle & Hlt) Hcx.
  assert (Hip : (i < List.length p)%nat) by (apply nth_error_Some; congruence).
  exists i. split; [rewrite nth_error_app1; assumption |]. split.
  - intros j e Hj. apply nth_error_snoc in Hj.
    destruct Hj as [[_ Hj] | [_ ->]]; [eapply Hle; eassumption | exact Hcx].
  - intros j e Hji Hj. apply nth_error_snoc in Hj.
    destruct Hj as [[_ Hj] | [Hj _]]; [eapply Hlt; eassumption | lia].
Qed.

Lemma firstMinimizer_new (p : list A) (c x : A) :
  firstMinimizer f p c -> (f x < f c)%R -> firstMinimizer f (p ++ [x]) x.
Proof.
  intros (i & Hi & Hle & Hlt) Hxc.
  exists (List.length p). split.
  - rewrite nth_error_app2 by lia. rewrite Nat.sub_diag. reflexivity.
  - split.
    + intros j e Hj. apply nth_error_snoc in Hj.
      destruct Hj as [[_ Hj] | [_ ->]]; [| lra].
      specialize (Hle _ _ Hj). lra.
    + intros j e Hji Hj. apply nth_error_snoc in Hj.
      destruct Hj as [[_ Hj] | [Hj _]]; [| lia].
      specialize (Hle _ _ Hj). lra.
Qed.
End FirstMinimizer.

(** Whatever the reading of numbers, a scan that starts on a non-empty
    list ends holding one of its entries. *)
Section ScanAnyNumber.
Context {num : Type} {N : JsNumber num}.
Variables r g b : Z.

Lemma scanStep_holdsEntry (all : list ColorName) (st : scanState) (x : ColorName) :
  holdsEntry all st -> In x all -> holdsEntry all (scanStep r g b st x).
Proof.
  intros Hst Hx. unfold scanStep.
  destruct (below (rgbDistance r g b x) (fst st)); [| exact Hst].
  exists x. split; [reflexivity | exact Hx].
Qed.

Lemma scanColors_holdsEntry (all l : list ColorName) (st : scanState) :
  holdsEntry all st -> incl l all -> holdsEntry all (scanColors r g b l st).
Proof.
  revert st. induction l as [| x l IH]; intros st Hst Hl; [exact Hst |].
  unfold scanColors. cbn [fold_left]. apply IH.
  - apply scanStep_holdsEntry; [exact Hst | apply Hl; left; reflexivity].
  - intros y Hy. apply Hl. right. exact Hy.
Qed.

Lemma scanColors_start_holdsEntry (x : ColorName) (l : list ColorName) :
  holdsEntry (x :: l) (scanColors r g b (x :: l) (None, None)).
Proof.
  unfold scanColors. cbn [fold_left]. unfold scanStep at 2. cbn [fst below].
  apply scanColors_holdsEntry.
  - exists x. split; [reflexivity | left; reflexivity].
  - intros y Hy. right. exact Hy.
Qed.
End ScanAnyNumber.

Section ScanReal.
Variables r g b : Z.

Let dist : ColorName -> R := rgbDistance r g b.

(** Once the loop holds an entry it holds, at every later point, the
    first entry of least distance among those seen. *)
Lemma scanColors_invariant (l prefix : list ColorName) (c0 : ColorName) :
  firstMinimizer dist prefix c0 ->
  exists c,
    scanColors r g b l (Some (dist c0), Some c0) = (Some (dist c), Some c) /\
    firstMinimizer dist (prefix ++ l) c.
Proof.
  revert prefix c0. induction l as [| x l IH]; intros prefix c0 Hmin.
  - exists c0. rewrite app_nil_r. split; [reflexivity | exact Hmin].
  - unfold scanColors. cbn [fold_left]. unfold scanStep at 2.
    cbn [fst below js_lt RealNumber].
    replace (prefix ++ x :: l) with ((prefix ++ [x]) ++ l)
      by (rewrite <- app_assoc; reflexivity).
    fold dist. destruct (Rltb (dist x) (dist c0)) eqn:E.
    + apply Rltb_true_iff in E.
      apply (IH (prefix ++ [x]) x).
      eapply firstMinimizer_new; eassumption.
    + apply Rltb_false_iff in E.
      apply (IH (prefix ++ [x]) c0).
      apply firstMinimizer_keep; assumption.
Qed.

Lemma scanColors_firstMinimizer (x : ColorName) (l : list ColorName) :
  exists c,
    scanColors r g b (x :: l) (None, None) = (Some (dist c), Some c) /\
    firstMinimizer dist (x :: l) c.
Proof.
  unfold scanColors. cbn [fold_left]. unfold scanStep at 2. cbn [fst below].
  apply (scanColors_invariant l [x] x). apply firstMinimizer_single.
Qed.
End ScanReal.

(** ** Lookup by hex string *)

Lemma ofInt_real (z : Z) : ofInt (num := R) z = IZR z.
Proof. unfold ofInt. cbn. unfold Q2R. cbn. field. Qed.

Lemma rgbDistance_real (r g b : Z) (c : ColorName) :
  rgbDistance (num := R) r g b c = sqrt (IZR (sqDistance r g b c)).
Proof.
  unfold rgbDistance, sqDistance. destruct (rgb c) as [[c0 c1] c2].
  cbn [Math_sqrt Math_pow js_add js_sub lit RealNumber].
  rewrite Q2R_two, !Rpow_js_two.
  fold (ofInt (num := R) r) (ofInt (num := R) g) (ofInt (num := R) b).
  fold (ofInt (num := R) c0) (ofInt (num := R) c1) (ofInt (num := R) c2).
  rewrite !ofInt_real.
  rewrite !plus_IZR, !mult_IZR, !minus_IZR. reflexivity.
Qed.

Lemma sqDistance_nonneg (r g b : Z) (c : ColorName) : 0 <= sqDistance r g b c.
Proof.
  unfold sqDistance. destruct (rgb c) as [[c0 c1] c2].
  pose proof (Z.square_nonneg (r - c0)). pose proof (Z.square_nonneg (g - c1)).
  pose proof (Z.square_nonneg (b - c2)). lia.
Qed.

Lemma Rltb_sqrt_IZR (x y : Z) :
  0 <= x -> 0 <= y -> Rltb (sqrt (IZR x)) (sqrt (IZR y)) = (x <? y).
Proof.
  intros Hx Hy.
  assert (Hx' : (0 <= IZR x)%R) by (apply IZR_le; exact Hx).
  assert (Hy' : (0 <= IZR y)%R) by (apply IZR_le; exact Hy).
  destruct (x <? y) eqn:E.
  - apply Z.ltb_lt in E. apply Rltb_true_iff.
    apply sqrt_lt_1; try assumption. apply IZR_lt; exact E.
  - apply Z.ltb_ge in E. apply Rltb_false_iff.
    apply sqrt_le_1; try assumption. apply IZR_le; exact E.
Qed.

Lemma scanStep_realState (r g b : Z) (st : option (Z * ColorName)) (x : ColorName) :
  nonnegState st ->
  scanStep r g b (realState st) x = realState (scanStepSq r g b st x) /\
  nonnegState (scanStepSq r g b st x).
Proof.
  intros Hst. unfold scanStep, scanStepSq.
  pose proof (sqDistance_nonneg r g b x) as Hd.
  destruct st as [[m c] |]; cbn [realState fst below js_lt RealNumber].
  - rewrite rgbDistance_real. cbn in Hst.
    rewrite Rltb_sqrt_IZR by assumption.
    destruct (sqDistance r g b x <? m); split; try reflexivity; assumption.
  - rewrite rgbDistance_real. split; [reflexivity | exact Hd].
Qed.

Lemma scanColors_realState (r g b : Z) (l : list ColorName) (st : option (Z * ColorName)) :
  nonnegState st ->
  scanColors r g b l (realState st) = realState (scanColorsSq r g b l st).
Proof.
  revert st. induction l as [| x l IH]; intros st Hst; [reflexivity |].
  unfold scanColors, scanColorsSq. cbn [fold_left].
  destruct (scanStep_realState r g b st x Hst) as [Heq Hnn].
  rewrite Heq. apply IH. exact Hnn.
Qed.

Lemma findNearestScan_sq (s : string) (gs : string * string * string) (r g b : Z) :
  hexPatternExec s = Some gs -> parseGroups gs = Some (r, g, b) ->
  findNearestScan (num := R) s = Some (realState (scanColorsSq r g b colorNames None)).
Proof.
  intros Hgs Hp. unfold findNearestScan. rewrite Hgs, Hp.
  f_equal. apply (scanColors_realState r g b colorNames None). exact I.
Qed.

Lemma hexToRgb_of_match (s : string) (gs : string * string * string) (r g b : Z) :
  hexPatternExec s = Some gs -> parseGroups gs = Some (r, g, b) ->
  hexToRgb s = Ok {| rgb_r := r; rgb_g := g; rgb_b := b |}.
Proof. intros Hgs Hp. unfold hexToRgb. rewrite Hgs, Hp. reflexivity. Qed.

Lemma colorNames_cons : exists x l, colorNames = x :: l.
Proof. unfold colorNames. eexists. eexists. reflexivity. Qed.

(** On a matched input the lookup returns the first table entry of least
    RGB distance. *)
Lemma findNearestColorName_of_match (s : string) (gs : string * string * string) (r g b : Z) :
  hexPatternExec s = Some gs -> parseGroups gs = Some (r, g, b) ->
  exists c,
    findNearestScan (num := R) s = Some (Some (rgbDistance r g b c), Some c) /\
    findNearestColorName (num := R) s = Some c /\
    firstMinimizer (rgbDistance (num := R) r g b) colorNames c.
Proof.
  intros Hgs Hp. destruct colorNames_cons as (x & l & Hcn).
  destruct (scanColors_firstMinimizer r g b x l) as (c & Hscan & Hmin).
  exists c.
  assert (Hs : findNearestScan (num := R) s = Some (Some (rgbDistance r g b c), Some c)).
  { unfold findNearestScan. rewrite Hgs, Hp, Hcn, Hscan. reflexivity. }
  split; [exact Hs |]. split.
  - unfold findNearestColorName. rewrite Hs. reflexivity.
  - rewrite Hcn. exact Hmin.
Qed.

Lemma hexPatternExec_None (s : string) :
  hexPatternExec s = None <-> ~ wellFormedHex s.
Proof.
  rewrite <- hexPatternExec_wellFormed. split.
  - intros Hn [gs Hgs]. congruence.
  - intros Hn. destruct (hexPatternExec s) as [gs |] eqn:E; [| reflexivity].
    exfalso. apply Hn. exists gs. reflexivity.
Qed.

Lemma findNearestColorName_any_number {num : Type} {N : JsNumber num}
  (s : string) (gs : string * string * string) (r g b : Z) :
  hexPatternExec s = Some gs -> parseGroups gs = Some (r, g, b) ->
  exists st c,
    findNearestScan (num := num) s = Some st /\
    findNearestColorName (num := num) s = Some c /\ In c colorNames.
Proof.
  intros Hgs Hp. destruct colorNames_cons as (x & l & Hcn).
  destruct (scanColors_start_holdsEntry (num := num) r g b x l) as (c & Hc & Hin).
  exists (scanColors r g b colorNames (None, None)), c.
  unfold findNearestColorName, findNearestScan. rewrite Hgs, Hp.
  split; [reflexivity |]. rewrite Hcn. split; assumption.
Qed.

(** C7.  [hexToRgb] throws, and [findNearestColorName] returns [null]
    without reaching the loop, exactly on the strings that are not an
    optional [#] followed by six hexadecimal digits; on every other string
    [hexToRgb] returns the triple of the three digit pairs.  This holds in
    every reading of numbers. *)
Theorem hex_lookup_rejects_exactly_malformed
  (num : Type) (N : JsNumber num) (s : string) :
  (hexToRgb s = Throw ("Invalid hex color: " ++ s) <-> ~ wellFormedHex s) /\
  (findNearestScan (num := num) s = None <-> ~ wellFormedHex s) /\
  (findNearestColorName (num := num) s = None <-> ~ wellFormedHex s) /\
  (wellFormedHex s ->
   exists c1 c2 c3 c4 c5 c6,
     stripHash s = sixOf c1 c2 c3 c4 c5 c6 /\
     hexToRgb s = Ok {| rgb_r := pairValue c1 c2;
                        rgb_g := pairValue c3 c4;
                        rgb_b := pairValue c5 c6 |}).
Proof.
  destruct (hexPatternExec s) as [gs |] eqn:Hgs.
  - assert (Hwf : wellFormedHex s)
      by (apply hexPatternExec_wellFormed; exists gs; exact Hgs).
    destruct (parseGroups_total s _ Hgs)
      as (c1 & c2 & c3 & c4 & c5 & c6 & Hs & Hp & _).
    pose proof (hexToRgb_of_match s _ _ _ _ Hgs Hp) as Hrgb.
    destruct (findNearestColorName_any_number (num := num) s _ _ _ _ Hgs Hp)
      as (st & c & Hscan & Hname & _).
    repeat split; intros; try contradiction; try congruence.
    exists c1, c2, c3, c4, c5, c6. split; assumption.
  - assert (Hnwf : ~ wellFormedHex s) by (apply hexPatternExec_None; exact Hgs).
    assert (Hrgb : hexToRgb s = Throw ("Invalid hex color: " ++ s))
      by (unfold hexToRgb; rewrite Hgs; reflexivity).
    assert (Hscan : findNearestScan (num := num) s = None)
      by (unfold findNearestScan; rewrite Hgs; reflexivity).
    assert (Hname : findNearestColorName (num := num) s = None)
      by (unfold findNearestColorName; rewrite Hscan; reflexivity).
    repeat split; intros; try assumption; contradiction.
Qed.

(** C6.  On every well-formed string the lookup returns an entry of the
    table, which is not empty; this holds in every reading of numbers. *)
Theorem findNearestColorName_total (num : Type) (N : JsNumber num) (s : string) :
  wellFormedHex s ->
  exists c, findNearestColorName (num := num) s = Some c /\ In c colorNames.
Proof.
  intros Hwf. apply hexPatternExec_wellFormed in Hwf. destruct Hwf as [gs Hgs].
  destruct (parseGroups_total s _ Hgs) as (c1 & c2 & c3 & c4 & c5 & c6 & _ & Hp & _).
  destruct (findNearestColorName_any_number (num := num) s _ _ _ _ Hgs Hp)
    as (st & c & _ & Hname & Hin).
  exists c. split; assumption.
Qed.

Lemma findNearestColorName_total_witness :
  exists c, findNearestColorName (num := R) "#4682b4" = Some c /\ In c colorNames.
Proof.
  apply (findNearestColorName_total R RealNumber "#4682b4").
  apply hexPatternExec_wellFormed. eexists. reflexivity.
Defined.

(** C1 (as amended).  On every well-formed string the lookup parses the
    three channels and returns the table entry whose Euclidean distance in
    RGB, [sqrt ((r - r')^2 + (g - g')^2 + (b - b')^2)], to the input is
    least, the first such entry in table order. *)
Theorem findNearestColorName_least_rgb_distance (s : string) :
  wellFormedHex s ->
  exists r g b c,
    hexToRgb s = Ok {| rgb_r := r; rgb_g := g; rgb_b := b |} /\
    findNearestColorName (num := R) s = Some c /\
    firstMinimizer (rgbDistance (num := R) r g b) colorNames c.
Proof.
  intros Hwf. apply hexPatternExec_wellFormed in Hwf. destruct Hwf as [gs Hgs].
  destruct (parseGroups_total s _ Hgs) as (c1 & c2 & c3 & c4 & c5 & c6 & _ & Hp & _).
  destruct (findNearestColorName_of_match s _ _ _ _ Hgs Hp) as (c & _ & Hname & Hmin).
  exists (pairValue c1 c2), (pairValue c3 c4), (pairValue c5 c6), c.
  split; [eapply hexToRgb_of_match; eassumption |]. split; assumption.
Qed.

Lemma findNearestColorName_least_rgb_distance_witness :
  exists r g b c,
    hexToRgb "8000FF" = Ok {| rgb_r := r; rgb_g := g; rgb_b := b |} /\
    findNearestColorName (num := R) "8000FF" = Some c /\
    firstMinimizer (rgbDistance (num := R) r g b) colorNames c.
Proof.
  apply (findNearestColorName_least_rgb_distance "8000FF").
  apply hexPatternExec_wellFormed. eexists. reflexivity.
Defined.

(** The lookup evaluated through the integer scan. *)
Lemma findNearestScan_eval (s : string) (r g b m : Z) (c : ColorName) :
  option_map parseGroups (hexPatternExec s) = Some (Some (r, g, b)) ->
  scanColorsSq r g b colorNames None = Some (m, c) ->
  findNearestScan (num := R) s = Some (Some (sqrt (IZR m)), Some c) /\
  findNearestColorName (num := R) s = Some c.
Proof.
  intros Hm Hsq.
  destruct (hexPatternExec s) as [gs |] eqn:Hgs; [| discriminate].
  cbn in Hm. inversion Hm as [Hp].
  pose proof (findNearestScan_sq s _ _ _ _ Hgs Hp) as Hscan. rewrite Hsq in Hscan.
  split; [exact Hscan |].
  unfold findNearestColorName. rewrite Hscan. reflexivity.
Qed.

Lemma deltaE2000_self (p : LAB R) : deltaE2000 p p = 0%R.
Proof.
  rewrite deltaE2000_real. cbv zeta.
  assert (Hh : hueRadicand p p = 0%R) by (unfold hueRadicand; cbn; ring).
  rewrite Hh, sqrt_0.
  match goal with
  | |- sqrt ?x = _ => replace x with 0%R; [apply sqrt_0 |]
  end.
  unfold Rsqr, Rdiv. rewrite !Rminus_diag. lra.
Qed.

(** C5.  The lookup on ["FF0000"] returns the entry named "red"; the least
    distance the loop found is exactly 0, and so is [deltaE2000] between the
    Lab colour of the input and that of the entry. *)
Theorem findNearestColorName_FF0000 :
  findNearestColorName (num := R) "FF0000" = Some redEntry /\
  name redEntry = "red" /\
  In redEntry colorNames /\
  findNearestScan (num := R) "FF0000" = Some (Some 0%R, Some redEntry) /\
  hexToRgb "FF0000" = Ok {| rgb_r := 255; rgb_g := 0; rgb_b := 0 |} /\
  deltaE2000 (num := R) (labOfRgb (255, 0, 0)) (labOfRgb (rgb redEntry)) = 0%R.
Proof.
  destruct (findNearestScan_eval "FF0000" 255 0 0 0 redEntry)
    as [Hscan Hname]; [reflexivity | reflexivity |].
  rewrite sqrt_0 in Hscan.
  split; [exact Hname |]. split; [reflexivity |].
  split; [unfold colorNames, redEntry; simpl; tauto |].
  split; [exact Hscan |]. split; [reflexivity |].
  apply deltaE2000_self.
Qed.

(** The functions on a few inputs. *)
Example hexToRgb_lower_case :
  hexToRgb "#ff8000" = Ok {| rgb_r := 255; rgb_g := 128; rgb_b := 0 |}.
Proof. reflexivity. Qed.

Example hexToRgb_three_digits : hexToRgb "#fff" = Throw "Invalid hex color: #fff".
Proof. reflexivity. Qed.

Example hexToRgb_two_hashes : hexToRgb "##ff8000" = Throw "Invalid hex color: ##ff8000".
Proof. reflexivity. Qed.

Example hexToRgb_seven_digits : hexToRgb "ff80000" = Throw "Invalid hex color: ff80000".
Proof. reflexivity. Qed.

Example findNearestColorName_not_hex : findNearestColorName (num := R) "orange" = None.
Proof. reflexivity. Qed.

Example findNearestColorName_steel_blue :
  findNearestColorName (num := R) "#4682b4" =
  Some {| name := "steel blue"; hex := "#4682B4"; rgb := (70, 130, 180)%Z |}.
Proof.
  destruct (findNearestScan_eval "#4682b4" 70 130 180 0
              {| name := "steel blue"; hex := "#4682B4"; rgb := (70, 130, 180)%Z |})
    as [_ Hname]; [reflexivity | reflexivity | exact Hname].
Qed.

(** Grey and gray share their colour: the earlier entry, "gray", is
    returned. *)
Example findNearestColorName_tie :
  findNearestColorName (num := R) "808080" =
  Some {| name := "gray"; hex := "#808080"; rgb := (128, 128, 128)%Z |}.
Proof.
  destruct (findNearestScan_eval "808080" 128 128 128 0
              {| name := "gray"; hex := "#808080"; rgb := (128, 128, 128)%Z |})
    as [_ Hname]; [reflexivity | reflexivity | exact Hname].
Qed.

(** ** [rgbToHex] and back *)

Lemma Math_round_IZR (z : Z) : Math_round (IZR z) = z.
Proof. unfold Math_round. apply Zfloor_eq. lra. Qed.

Lemma byteOk_all : forallb byteOk (map Z.of_nat (seq 0 256)) = true.
Proof. vm_compute. reflexivity. Qed.

Lemma byteOk_range (z : Z) : 0 <= z <= 255 -> byteOk z = true.
Proof.
  intros Hz. pose proof byteOk_all as Hall. rewrite forallb_forall in Hall.
  apply Hall. replace z with (Z.of_nat (Z.to_nat z)) by lia.
  apply in_map. apply in_seq. lia.
Qed.

Lemma hexByte_channel (z : Z) :
  0 <= z <= 255 ->
  exists c1 c2,
    hexByte (IZR z) = String c1 (String c2 EmptyString) /\
    In c1 lowerHexAlphabet /\ In c2 lowerHexAlphabet /\
    hexClass c1 = true /\ hexClass c2 = true /\ pairValue c1 c2 = z.
Proof.
  intros Hz. apply byteOk_range in Hz. unfold byteOk in Hz.
  unfold hexByte. rewrite Math_round_IZR.
  destruct (padByte (toString16 z)) as [| c1 [| c2 [| c3 tl]]]; try discriminate.
  apply andb_prop in Hz. destruct Hz as [Hz Hv].
  apply andb_prop in Hz. destruct Hz as [Hz H2].
  apply andb_prop in Hz. destruct Hz as [Hz H1].
  apply andb_prop in Hz. destruct Hz as [L1 L2].
  exists c1, c2. split; [reflexivity |].
  apply existsb_exists in L1. destruct L1 as (x1 & I1 & E1).
  apply Ascii.eqb_eq in E1. subst x1.
  apply existsb_exists in L2. destruct L2 as (x2 & I2 & E2).
  apply Ascii.eqb_eq in E2. subst x2.
  apply Z.eqb_eq in Hv. auto.
Qed.

(** C9.  For integer channels in [0, 255], [rgbToHex] writes [#] followed
    by six lower-case hexadecimal digits, two per channel with a leading
    zero where needed, and [hexToRgb] reads the same three channels back. *)
Theorem rgbToHex_hexToRgb_roundtrip (r g b : Z) :
  0 <= r <= 255 -> 0 <= g <= 255 -> 0 <= b <= 255 ->
  (exists c1 c2 c3 c4 c5 c6,
     rgbToHex (IZR r) (IZR g) (IZR b) = String "#" (sixOf c1 c2 c3 c4 c5 c6) /\
     Forall (fun c => In c lowerHexAlphabet) [c1; c2; c3; c4; c5; c6] /\
     pairValue c1 c2 = r /\ pairValue c3 c4 = g /\ pairValue c5 c6 = b) /\
  wellFormedHex (rgbToHex (IZR r) (IZR g) (IZR b)) /\
  hexToRgb (rgbToHex (IZR r) (IZR g) (IZR b)) =
    Ok {| rgb_r := r; rgb_g := g; rgb_b := b |}.
Proof.
  intros Hr Hg Hb.
  destruct (hexByte_channel r Hr) as (c1 & c2 & E1 & La1 & La2 & Ha1 & Ha2 & V1).
  destruct (hexByte_channel g Hg) as (c3 & c4 & E2 & Lb1 & Lb2 & Hb1 & Hb2 & V2).
  destruct (hexByte_channel b Hb) as (c5 & c6 & E3 & Lc1 & Lc2 & Hc1 & Hc2 & V3).
  assert (Hs : rgbToHex (IZR r) (IZR g) (IZR b) = String "#" (sixOf c1 c2 c3 c4 c5 c6)).
  { unfold rgbToHex. cbn [map String.concat]. rewrite E1, E2, E3. reflexivity. }
  assert (Hall : Forall (fun c => hexClass c = true) [c1; c2; c3; c4; c5; c6])
    by (repeat constructor; assumption).
  assert (Hexec : hexPatternExec (String "#" (sixOf c1 c2 c3 c4 c5 c6)) =
                  Some (String c1 (String c2 EmptyString),
                        String c3 (String c4 EmptyString),
                        String c5 (String c6 EmptyString))).
  { apply hexPatternExec_Some. exists c1, c2, c3, c4, c5, c6.
    split; [reflexivity |]. split; [reflexivity | exact Hall]. }
  rewrite Hs. split; [| split].
  - exists c1, c2, c3, c4, c5, c6. split; [reflexivity |].
    split; [| auto].
    repeat (apply Forall_cons; [assumption |]). apply Forall_nil.
  - apply hexPatternExec_wellFormed. eexists. exact Hexec.
  - destruct (parseInt16_pair c1 c2 Ha1 Ha2) as [P1 _].
    destruct (parseInt16_pair c3 c4 Hb1 Hb2) as [P2 _].
    destruct (parseInt16_pair c5 c6 Hc1 Hc2) as [P3 _].
    apply (hexToRgb_of_match _ _ _ _ _ Hexec).
    unfold parseGroups. rewrite P1, P2, P3, V1, V2, V3. reflexivity.
Qed.

Lemma rgbToHex_hexToRgb_roundtrip_witness :
  (exists c1 c2 c3 c4 c5 c6,
     rgbToHex (IZR 255) (IZR 165) (IZR 0) = String "#" (sixOf c1 c2 c3 c4 c5 c6) /\
     Forall (fun c => In c lowerHexAlphabet) [c1; c2; c3; c4; c5; c6] /\
     pairValue c1 c2 = 255 /\ pairValue c3 c4 = 165 /\ pairValue c5 c6 = 0) /\
  wellFormedHex (rgbToHex (IZR 255) (IZR 165) (IZR 0)) /\
  hexToRgb (rgbToHex (IZR 255) (IZR 165) (IZR 0)) =
    Ok {| rgb_r := 255; rgb_g := 165; rgb_b := 0 |}.
Proof. apply (rgbToHex_hexToRgb_roundtrip 255 165 0); lia. Defined.

(** The text written for orange. *)
Example rgbToHex_orange : rgbToHex 255 165 0 = "#ffa500".
Proof.
  unfold rgbToHex, hexByte. cbn [map]. rewrite !Math_round_IZR. reflexivity.
Qed.

(** ** Numeric enclosures (exact arithmetic) *)

Local Open Scope R_scope.

Lemma Rpower_cube (t : R) : 0 < t -> Rpower t (1 / 3) ^ 3 = t.
Proof.
  intros Ht. simpl. rewrite Rmult_1_r, <- !Rpower_plus.
  replace (1 / 3 + (1 / 3 + 1 / 3)) with 1 by field.
  apply Rpower_1. exact Ht.
Qed.

Lemma Rpower_gamma (u : R) : 0 < u -> Rpower u 2.4 ^ 5 = u ^ 12.
Proof.
  intros Hu.
  rewrite <- (Rpower_pow 5) by (apply exp_pos).
  rewrite Rpower_mult.
  replace (2.4 * INR 5) with (INR 12) by (simpl; lra).
  apply Rpower_pow. exact Hu.
Qed.

Lemma pow_lt_inv (n : nat) (x y : R) : 0 <= y -> x ^ n < y ^ n -> 0 <= x -> x < y.
Proof.
  intros Hy Hlt Hx. destruct (Rlt_le_dec x y) as [H | H]; [exact H |].
  exfalso. assert (y ^ n <= x ^ n) by (apply pow_incr; split; assumption). lra.
Qed.

(** A positive [v] whose [n]-th power is [X] lies between two numbers whose
    [n]-th powers enclose [X]. *)
Lemma pow_enclosure (n : nat) (v lo hi X : R) :
  0 < v -> v ^ n = X -> 0 <= lo -> 0 <= hi -> lo ^ n < X -> X < hi ^ n ->
  lo < v < hi.
Proof.
  intros Hv HX Hlo Hhi Hl Hh. subst X. split.
  - apply (pow_lt_inv n); [left; exact Hv | exact Hl | exact Hlo].
  - apply (pow_lt_inv n); [exact Hhi | exact Hh | left; exact Hv].
Qed.

Lemma labCurve_real_cbrt (t : R) : 0.008856 < t -> labCurve t = Rpower t (1 / 3).
Proof.
  intros Ht. unfold labCurve. cbn -[Q2R].
  rewrite Rgtb_true by (q2r; lra).
  rewrite Rpow_js_pos by lra. f_equal. q2r. field.
Qed.

Lemma labCurve_real_linear (t : R) : t <= 0.008856 -> labCurve t = 7.787 * t + 16 / 116.
Proof.
  intros Ht. unfold labCurve. cbn -[Q2R].
  rewrite Rgtb_false by (q2r; lra). q2r. field.
Qed.

(** A cube root lies between two numbers whose cubes enclose the argument. *)
Lemma labCurve_bounds (t tl th lo hi : R) :
  tl <= t <= th -> 0.008856 < tl -> 0 <= lo -> 0 <= hi ->
  lo ^ 3 < tl -> th < hi ^ 3 ->
  lo < labCurve t < hi.
Proof.
  intros Ht Htl Hlo Hhi Hl Hh.
  rewrite labCurve_real_cbrt by lra.
  assert (Hpos : 0 < t) by lra.
  apply (pow_enclosure 3) with (X := t);
    [apply exp_pos | apply Rpower_cube; exact Hpos | assumption | assumption | |].
  - destruct Ht as [Ht _]. eapply Rlt_le_trans; eassumption.
  - destruct Ht as [_ Ht]. eapply Rle_lt_trans; eassumption.
Qed.

Lemma gammaCorrect_real_pow (c : R) :
  0.04045 < c -> gammaCorrect c = Rpower ((c + 0.055) / 1.055) 2.4.
Proof.
  intros Hc. unfold gammaCorrect. cbn -[Q2R].
  rewrite Rgtb_true by (q2r; lra).
  assert (Hu : 0 < (c + Q2R 0.055) / Q2R 1.055).
  { q2r. apply Rdiv_lt_0_compat; lra. }
  rewrite Rpow_js_pos by exact Hu. f_equal; q2r; field.
Qed.

Lemma gammaCorrect_real_linear (c : R) : c <= 0.04045 -> gammaCorrect c = c / 12.92.
Proof.
  intros Hc. unfold gammaCorrect. cbn -[Q2R].
  rewrite Rgtb_false by (q2r; lra). q2r. field.
Qed.

Lemma gammaCorrect_bounds (c lo hi : R) :
  0.04045 < c -> 0 <= lo -> 0 <= hi ->
  lo ^ 5 < ((c + 0.055) / 1.055) ^ 12 -> ((c + 0.055) / 1.055) ^ 12 < hi ^ 5 ->
  lo < gammaCorrect c < hi.
Proof.
  intros Hc Hlo Hhi.
  assert (Hu : 0 < (c + 0.055) / 1.055) by (apply Rdiv_lt_0_compat; lra).
  intros Hl Hh.
  rewrite gammaCorrect_real_pow by exact Hc.
  apply (pow_enclosure 5) with (X := ((c + 0.055) / 1.055) ^ 12);
    [apply exp_pos | apply Rpower_gamma; exact Hu | assumption ..].
Qed.

Lemma gammaCorrect_zero : gammaCorrect 0 = 0.
Proof. rewrite gammaCorrect_real_linear by lra. lra. Qed.

Lemma gammaCorrect_one : gammaCorrect 1 = 1.
Proof.
  rewrite gammaCorrect_real_pow by lra.
  replace ((1 + 0.055) / 1.055) with 1 by lra.
  unfold Rpower. rewrite ln_1, Rmult_0_r. apply exp_0.
Qed.

Lemma Q2R_int (z : Z) : Q2R (z # 1) = IZR z.
Proof. unfold Q2R. cbn [Qnum Qden]. lra. Qed.

Lemma rgbToLab_linear (r g b : R) :
  rgbToLab r g b =
  labOfLinear (gammaCorrect (r / 255)) (gammaCorrect (g / 255)) (gammaCorrect (b / 255)).
Proof.
  unfold rgbToLab, labOfLinear. cbn -[Q2R gammaCorrect labCurve].
  rewrite !Q2R_int.
  replace (Q2R 1.00000) with 1 by (q2r; lra).
  reflexivity.
Qed.

(** Lab coordinates enclosed from enclosures of the three cube roots. *)
Lemma labOfLinear_bounds (rn gn bn xl xh yl yh zl zh fxl fxh fyl fyh fzl fzh : R) :
  xl <= (rn * 0.4124564 + gn * 0.3575761 + bn * 0.1804375) / 0.95047 <= xh ->
  yl <= (rn * 0.2126729 + gn * 0.7151522 + bn * 0.0721750) / 1 <= yh ->
  zl <= (rn * 0.0193339 + gn * 0.1191920 + bn * 0.9503041) / 1.08883 <= zh ->
  0.008856 < xl -> 0.008856 < yl -> 0.008856 < zl ->
  0 <= fxl -> 0 <= fxh -> 0 <= fyl -> 0 <= fyh -> 0 <= fzl -> 0 <= fzh ->
  fxl ^ 3 < xl -> xh < fxh ^ 3 ->
  fyl ^ 3 < yl -> yh < fyh ^ 3 ->
  fzl ^ 3 < zl -> zh < fzh ^ 3 ->
  116 * fyl - 16 < lab_l (labOfLinear rn gn bn) < 116 * fyh - 16 /\
  500 * (fxl - fyh) < lab_a (labOfLinear rn gn bn) < 500 * (fxh - fyl) /\
  200 * (fyl - fzh) < lab_b (labOfLinear rn gn bn) < 200 * (fyh - fzl).
Proof.
  intros Hx Hy Hz Hxl Hyl Hzl Pxl Pxh Pyl Pyh Pzl Pzh Cxl Cxh Cyl Cyh Czl Czh.
  pose proof (labCurve_bounds _ xl xh fxl fxh Hx Hxl Pxl Pxh Cxl Cxh) as Fx.
  pose proof (labCurve_bounds _ yl yh fyl fyh Hy Hyl Pyl Pyh Cyl Cyh) as Fy.
  pose proof (labCurve_bounds _ zl zh fzl fzh Hz Hzl Pzl Pzh Czl Czh) as Fz.
  unfold labOfLinear. cbn [lab_l lab_a lab_b].
  clear - Fx Fy Fz. lra.
Qed.

Lemma labOfRgb_linear (r g b : Z) :
  labOfRgb (num := R) (r, g, b) =
  labOfLinear (gammaCorrect (IZR r / 255)) (gammaCorrect (IZR g / 255))
              (gammaCorrect (IZR b / 255)).
Proof. unfold labOfRgb. rewrite rgbToLab_linear, !ofInt_real. reflexivity. Qed.

Lemma channel_255 : IZR 255 / 255 = 1.
Proof. lra. Qed.

Lemma channel_0 : IZR 0 / 255 = 0.
Proof. lra. Qed.

Lemma labOfRgb_red :
  53.23 < lab_l (labOfRgb (num := R) pureRed) < 53.25 /\
  80.07 < lab_a (labOfRgb (num := R) pureRed) < 80.11 /\
  67.19 < lab_b (labOfRgb (num := R) pureRed) < 67.21.
Proof.
  unfold pureRed. rewrite labOfRgb_linear, ?channel_255, ?channel_0,
    ?gammaCorrect_one, ?gammaCorrect_zero.
  destruct (labOfLinear_bounds 1 0 0
              0.4339498 0.4339501 0.2126728 0.212673 0.0177564 0.0177567
              0.75707 0.7571 0.59689 0.59692 0.26087 0.2609)
    as (HL & HA & HB); try lra.
Qed.

Lemma labOfRgb_green :
  87.73 < lab_l (labOfRgb (num := R) pureGreen) < 87.74 /\
  (-86.2) < lab_a (labOfRgb (num := R) pureGreen) < (-86.17) /\
  83.17 < lab_b (labOfRgb (num := R) pureGreen) < 83.19.
Proof.
  unfold pureGreen. rewrite labOfRgb_linear, ?channel_255, ?channel_0,
    ?gammaCorrect_one, ?gammaCorrect_zero.
  destruct (labOfLinear_bounds 0 1 0
              0.3762096 0.3762099 0.7151521 0.7151523 0.1094678 0.1094681
              0.72188 0.72191 0.89425 0.89428 0.47835 0.47838)
    as (HL & HA & HB); try lra.
Qed.

Lemma labOfRgb_blue :
  32.29 < lab_l (labOfRgb (num := R) pureBlue) < 32.3 /\
  79.17 < lab_a (labOfRgb (num := R) pureBlue) < 79.2 /\
  (-107.87) < lab_b (labOfRgb (num := R) pureBlue) < (-107.85).
Proof.
  unfold pureBlue. rewrite labOfRgb_linear, ?channel_255, ?channel_0,
    ?gammaCorrect_one, ?gammaCorrect_zero.
  destruct (labOfLinear_bounds 0 0 1
              0.1898401 0.1898404 0.0721749 0.0721751 0.8727753 0.8727756
              0.57471 0.57474 0.41634 0.41637 0.95564 0.95567)
    as (HL & HA & HB); try lra.
Qed.

Lemma labOfRgb_magenta :
  60.32 < lab_l (labOfRgb (num := R) pureMagenta) < 60.33 /\
  98.22 < lab_a (labOfRgb (num := R) pureMagenta) < 98.25 /\
  (-60.84) < lab_b (labOfRgb (num := R) pureMagenta) < (-60.82).
Proof.
  unfold pureMagenta. rewrite labOfRgb_linear, ?channel_255, ?channel_0,
    ?gammaCorrect_one, ?gammaCorrect_zero.
  destruct (labOfLinear_bounds 1 0 1
              0.6237901 0.6237904 0.2848478 0.284848 0.8905319 0.8905322
              0.85442 0.85445 0.65795 0.65798 0.96208 0.96211)
    as (HL & HA & HB); try lra.
Qed.

Lemma labOfRgb_violet :
  40.9 < lab_l (labOfRgb (num := R) violet) < 40.92 /\
  83.15 < lab_a (labOfRgb (num := R) violet) < 83.18 /\
  (-93.3) < lab_b (labOfRgb (num := R) violet) < (-93.28).
Proof.
  unfold violet. rewrite labOfRgb_linear, ?channel_255, ?channel_0,
    ?gammaCorrect_one, ?gammaCorrect_zero.
  assert (Hg : 0.215859 < gammaCorrect (IZR 128 / 255) < 0.215862)
    by (apply gammaCorrect_bounds; lra).
  destruct (labOfLinear_bounds (gammaCorrect (IZR 128 / 255)) 0 1
              0.2835121 0.2835137 0.1180822 0.1180831 0.8766082 0.8766086
              0.65692 0.65695 0.49059 0.49062 0.95704 0.95707)
    as (HL & HA & HB); try lra.
Qed.


(** ** Bounds on [deltaE2000] (exact arithmetic) *)

Lemma chroma_real (p : LAB R) :
  chroma p = sqrt (lab_a p * lab_a p + lab_b p * lab_b p).
Proof. reflexivity. Qed.

Lemma chroma_nonneg (p : LAB R) : 0 <= chroma p.
Proof. rewrite chroma_real. apply sqrt_pos. Qed.

Lemma chroma_bounds (p : LAB R) (lo hi : R) :
  0 <= lo -> 0 <= hi ->
  lo * lo <= lab_a p * lab_a p + lab_b p * lab_b p <= hi * hi ->
  lo <= chroma p <= hi.
Proof.
  intros Hlo Hhi [Hl Hh]. rewrite chroma_real. split.
  - rewrite <- (sqrt_square lo Hlo). apply sqrt_le_1_alt. exact Hl.
  - rewrite <- (sqrt_square hi Hhi). apply sqrt_le_1_alt. exact Hh.
Qed.

Lemma hueRadicand_real (p q : LAB R) :
  hueRadicand p q =
  (lab_a p - lab_a q) * (lab_a p - lab_a q) +
  (lab_b p - lab_b q) * (lab_b p - lab_b q) -
  (chroma p - chroma q) * (chroma p - chroma q).
Proof. reflexivity. Qed.

(** The distance is at least the lightness difference... *)
Lemma deltaE2000_ge_lightness (p q : LAB R) :
  Rabs (lab_l p - lab_l q) <= deltaE2000 p q.
Proof.
  rewrite deltaE2000_real. cbv zeta.
  rewrite <- sqrt_Rsqr_abs. apply sqrt_le_1_alt.
  match goal with
  | |- _ <= _ + Rsqr ?x + Rsqr ?y =>
      pose proof (Rle_0_sqr x); pose proof (Rle_0_sqr y)
  end.
  lra.
Qed.

(** ... at least the weighted hue term ... *)
Lemma deltaE2000_ge_hue (p q : LAB R) (d s : R) :
  0 <= d -> 0 < s ->
  d * d <= hueRadicand p q -> 1 + 0.015 * chroma p <= s ->
  d / s <= deltaE2000 p q.
Proof.
  intros Hd Hs Hrad Hw. rewrite deltaE2000_real. cbv zeta.
  rewrite <- ?(chroma_real p), <- ?(chroma_real q).
  pose proof (chroma_nonneg p) as Hc.
  assert (Hw1 : 1 <= 1 + 0.015 * chroma p) by lra.
  set (w := 1 + 0.015 * chroma p) in *.
  assert (Hdh : d <= sqrt (hueRadicand p q)).
  { rewrite <- (sqrt_square d Hd). apply sqrt_le_1_alt. exact Hrad. }
  assert (Hq : d / s <= sqrt (hueRadicand p q) / w).
  { apply Rle_trans with (d / w).
    - unfold Rdiv. apply Rmult_le_compat_l; [exact Hd |].
      apply Rinv_le_contravar; lra.
    - unfold Rdiv. apply Rmult_le_compat_r; [| exact Hdh].
      left. apply Rinv_0_lt_compat. lra. }
  assert (Hq0 : 0 <= sqrt (hueRadicand p q) / w).
  { apply Rle_trans with (d / s); [| exact Hq].
    unfold Rdiv. apply Rmult_le_pos; [exact Hd |]. left. apply Rinv_0_lt_compat. exact Hs. }
  apply Rle_trans with (sqrt (Rsqr (sqrt (hueRadicand p q) / w))).
  - rewrite sqrt_Rsqr by exact Hq0. exact Hq.
  - apply sqrt_le_1_alt.
    match goal with
    | |- _ <= Rsqr ?x + Rsqr ?y + _ =>
        pose proof (Rle_0_sqr x); pose proof (Rle_0_sqr y)
    end.
    lra.
Qed.

(** ... and at most the plain Euclidean distance in Lab. *)
Lemma deltaE2000_le_euclid (p q : LAB R) :
  deltaE2000 p q <=
  sqrt (Rsqr (lab_l p - lab_l q) + Rsqr (lab_a p - lab_a q) + Rsqr (lab_b p - lab_b q)).
Proof.
  rewrite deltaE2000_real. cbv zeta. rewrite <- ?(chroma_real p), <- ?(chroma_real q).
  pose proof (chroma_nonneg p) as Hc.
  pose proof (hueRadicand_nonneg_real p q) as Hh.
  apply sqrt_le_1_alt.
  assert (H1 : Rsqr ((chroma p - chroma q) / (1 + 0.045 * chroma p)) <=
               Rsqr ((chroma p - chroma q) / 1))
    by (apply Rsqr_div_weight_le; lra).
  assert (H2 : Rsqr (sqrt (hueRadicand p q) / (1 + 0.015 * chroma p)) <=
               Rsqr (sqrt (hueRadicand p q) / 1))
    by (apply Rsqr_div_weight_le; lra).
  unfold Rdiv in H1 at 2. unfold Rdiv in H2 at 2.
  rewrite Rinv_1, Rmult_1_r in H1, H2.
  rewrite Rsqr_sqrt in H2 by exact Hh.
  set (X := Rsqr ((chroma p - chroma q) / (1 + 0.045 * chroma p))) in *.
  set (Y := Rsqr (sqrt (hueRadicand p q) / (1 + 0.015 * chroma p))) in *.
  clearbody X Y. rewrite hueRadicand_real in H2. unfold Rsqr in *. lra.
Qed.

(** C8.  The distance between the Lab colours of pure red and pure green
    exceeds 50 (it is about 73.4, and about 68.8 from green to red): the
    weighted hue term alone is above 58. *)
Theorem red_green_distance_above_50 :
  50 < deltaE2000 (num := R) (labOfRgb pureRed) (labOfRgb pureGreen) /\
  50 < deltaE2000 (num := R) (labOfRgb pureGreen) (labOfRgb pureRed).
Proof.
  pose proof labOfRgb_red as (HL1 & HA1 & HB1).
  pose proof labOfRgb_green as (HL2 & HA2 & HB2).
  generalize dependent (labOfRgb (num := R) pureRed).
  generalize dependent (labOfRgb (num := R) pureGreen).
  intros q HL2 HA2 HB2 p HL1 HA1 HB1.
  assert (Hcp : 104 <= chroma p <= 105) by (apply chroma_bounds; nra).
  assert (Hcq : 119 <= chroma q <= 120.5) by (apply chroma_bounds; nra).
  assert (Hda : 27600 <= (lab_a p - lab_a q) * (lab_a p - lab_a q)) by nra.
  assert (Hdb : 0 <= (lab_b p - lab_b q) * (lab_b p - lab_b q)) by nra.
  assert (Hdc : (chroma p - chroma q) * (chroma p - chroma q) <= 272.25) by nra.
  assert (Hpq : 165 * 165 <= hueRadicand p q) by (rewrite hueRadicand_real; lra).
  assert (Hqp : 165 * 165 <= hueRadicand q p) by (rewrite hueRadicand_sym; exact Hpq).
  split.
  - apply Rlt_le_trans with (165 / 2.575); [lra |].
    apply deltaE2000_ge_hue; lra.
  - apply Rlt_le_trans with (165 / 2.8075); [lra |].
    apply deltaE2000_ge_hue; lra.
Qed.

(** C1 (as stated) fails at ["8000FF"], the colour (128, 0, 255).  By RGB
    distance magenta (127) comes before blue (128), and the lookup returns
    magenta; by [deltaE2000] on the Lab colours blue is the nearer one (about
    9.7 against 22.9), whichever of the two colours is passed first. *)
Lemma findNearestColorName_not_least_deltaE :
  hexToRgb "8000FF" = Ok {| rgb_r := 128; rgb_g := 0; rgb_b := 255 |} /\
  findNearestColorName (num := R) "8000FF" = Some magentaEntry /\
  In blueEntry colorNames /\
  deltaE2000 (num := R) (labOfRgb violet) (labOfRgb (rgb blueEntry)) <
    deltaE2000 (labOfRgb violet) (labOfRgb (rgb magentaEntry)) /\
  deltaE2000 (num := R) (labOfRgb (rgb blueEntry)) (labOfRgb violet) <
    deltaE2000 (labOfRgb (rgb magentaEntry)) (labOfRgb violet).
Proof.
  split; [reflexivity |].
  split.
  { apply (findNearestScan_eval "8000FF" 128 0 255 16129 magentaEntry); reflexivity. }
  split; [unfold colorNames, blueEntry; simpl; tauto |].
  change (rgb blueEntry) with pureBlue. change (rgb magentaEntry) with pureMagenta.
  pose proof labOfRgb_violet as (HLv & HAv & HBv).
  pose proof labOfRgb_blue as (HLb & HAb & HBb).
  pose proof labOfRgb_magenta as (HLm & HAm & HBm).
  generalize dependent (labOfRgb (num := R) violet).
  generalize dependent (labOfRgb (num := R) pureBlue).
  generalize dependent (labOfRgb (num := R) pureMagenta).
  intros m HLm HAm HBm b HLb HAb HBb v HLv HAv HBv.
  assert (Heu : Rsqr (lab_l v - lab_l b) + Rsqr (lab_a v - lab_a b) +
                Rsqr (lab_b v - lab_b b) < 18 * 18) by (unfold Rsqr; nra).
  assert (Heu' : Rsqr (lab_l b - lab_l v) + Rsqr (lab_a b - lab_a v) +
                 Rsqr (lab_b b - lab_b v) < 18 * 18) by (unfold Rsqr; nra).
  assert (H18 : sqrt (18 * 18) = 18) by (apply sqrt_square; lra).
  assert (Hvb : deltaE2000 v b < 18).
  { eapply Rle_lt_trans; [apply deltaE2000_le_euclid |].
    rewrite <- H18. apply sqrt_lt_1_alt. split; [| exact Heu].
    repeat apply Rplus_le_le_0_compat; apply Rle_0_sqr. }
  assert (Hbv : deltaE2000 b v < 18).
  { eapply Rle_lt_trans; [apply deltaE2000_le_euclid |].
    rewrite <- H18. apply sqrt_lt_1_alt. split; [| exact Heu'].
    repeat apply Rplus_le_le_0_compat; apply Rle_0_sqr. }
  pose proof (deltaE2000_ge_lightness v m) as Hvm.
  pose proof (deltaE2000_ge_lightness m v) as Hmv.
  rewrite Rabs_left in Hvm by lra. rewrite Rabs_right in Hmv by lra.
  split; lra.
Qed.

(** ** [rgbToLab] against the wording of the specification *)

Lemma gammaCorrect_srgbDecode (c : R) : Spec.srgbDecode c (gammaCorrect c).
Proof.
  split; intros Hc.
  - apply gammaCorrect_real_linear. lra.
  - apply gammaCorrect_real_pow. lra.
Qed.

Lemma labCurve_labF (t : R) : Spec.labF t (labCurve t).
Proof.
  split; intros Ht.
  - rewrite labCurve_real_cbrt by lra. split.
    + left. apply exp_pos.
    + apply Rpower_cube. lra.
  - apply labCurve_real_linear. lra.
Qed.

(** No 8-bit channel sits on the gamma threshold: the linear branch is taken
    up to 10 and the power curve from 11 on. *)
Lemma channel_off_threshold (z : Z) :
  (z <= 10)%Z /\ IZR z / 255 < 0.04045 \/ (11 <= z)%Z /\ IZR z / 255 > 0.04045.
Proof.
  destruct (Z_le_gt_dec z 10) as [H | H].
  - left. split; [exact H |]. apply IZR_le in H. lra.
  - right. assert (H' : (11 <= z)%Z) by lia. split; [exact H' |].
    apply IZR_le in H'. lra.
Qed.

(** C3.  [rgbToLab] is the composition the specification describes: each
    channel, divided by 255, is gamma-decoded (divided by 12.92 below
    0.04045, [((c + 0.055) / 1.055) ^ 2.4] above), the linear triple is
    taken to XYZ by the D65 matrix and divided by the white point, and the
    Lab curve (cube root above 0.008856, [7.787 t + 16/116] below) gives
    [L = 116 fy - 16], [a = 500 (fx - fy)], [b = 200 (fy - fz)].  At a
    breakpoint itself the code takes the linear branch; an integer channel
    never lies on the gamma threshold. *)
Theorem rgbToLab_meets_spec (r g b : R) :
  Spec.rgbToLab r g b (rgbToLab r g b) /\
  gammaCorrect 0.04045 = 0.04045 / 12.92 /\
  labCurve 0.008856 = 7.787 * 0.008856 + 16 / 116 /\
  (forall z : Z, IZR z / 255 <> 0.04045).
Proof.
  split; [| split; [| split]].
  - rewrite rgbToLab_linear. unfold Spec.rgbToLab.
    exists (gammaCorrect (r / 255)), (gammaCorrect (g / 255)), (gammaCorrect (b / 255)).
    set (rl := gammaCorrect (r / 255)).
    set (gl := gammaCorrect (g / 255)).
    set (bl := gammaCorrect (b / 255)).
    exists (labCurve ((0.4124564 * rl + 0.3575761 * gl + 0.1804375 * bl) / 0.95047)),
           (labCurve ((0.2126729 * rl + 0.7151522 * gl + 0.0721750 * bl) / 1)),
           (labCurve ((0.0193339 * rl + 0.1191920 * gl + 0.9503041 * bl) / 1.08883)).
    repeat (split; [apply gammaCorrect_srgbDecode |]).
    cbn [Spec.xyzOfLinear Spec.whiteD65].
    repeat (split; [apply labCurve_labF |]).
    unfold labOfLinear.
    replace (rl * 0.4124564 + gl * 0.3575761 + bl * 0.1804375)
      with (0.4124564 * rl + 0.3575761 * gl + 0.1804375 * bl) by ring.
    replace (rl * 0.2126729 + gl * 0.7151522 + bl * 0.0721750)
      with (0.2126729 * rl + 0.7151522 * gl + 0.0721750 * bl) by ring.
    replace (rl * 0.0193339 + gl * 0.1191920 + bl * 0.9503041)
      with (0.0193339 * rl + 0.1191920 * gl + 0.9503041 * bl) by ring.
    reflexivity.
  - apply gammaCorrect_real_linear. lra.
  - apply labCurve_real_linear. lra.
  - intros z. destruct (channel_off_threshold z) as [[_ H] | [_ H]]; lra.
Qed.

(** ** The deduplication pass *)

Local Close Scope R_scope.
Local Open Scope nat_scope.

Section DedupeFacts.
Variable E : Type.
Variable near : E -> E -> bool.
Variable merge : E -> E -> E.

Lemma splitNear_Some (x : E) (l pre post : list E) (y : E) :
  splitNear near x l = Some (pre, y, post) ->
  l = pre ++ y :: post /\ near x y = true.
Proof.
  revert pre. induction l as [| z l IH]; intros pre Hs; simpl in Hs; [discriminate |].
  destruct (near x z) eqn:Hz.
  - inversion Hs; subst. split; [reflexivity | exact Hz].
  - destruct (splitNear near x l) as [[[pre' y'] post'] |] eqn:Hl; [| discriminate].
    inversion Hs; subst. destruct (IH pre' eq_refl) as [-> Hn].
    split; [reflexivity | exact Hn].
Qed.


(** A merge removes exactly one entry. *)
Lemma mergeFirstPair_length (l l' : list E) :
  mergeFirstPair near merge l = Some l' -> S (List.length l') = List.length l.
Proof.
  revert l'. induction l as [| x rest IH]; intros l' Hm; simpl in Hm; [discriminate |].
  destruct (splitNear near x rest) as [[[pre y] post] |] eqn:Hs.
  - inversion Hm; subst. apply splitNear_Some in Hs. destruct Hs as [-> _].
    simpl. rewrite !length_app. simpl. lia.
  - destruct (mergeFirstPair near merge rest) as [rest' |] eqn:Hr; [| discriminate].
    inversion Hm; subst. simpl. rewrite (IH rest' eq_refl). reflexivity.
Qed.




(** More fuel changes nothing. *)
Lemma dedupeLoop_more_fuel (fuel : nat) (l : list E) :
  List.length l <= fuel ->
  dedupeLoop near merge fuel l = dedupe near merge l.
Proof.
  unfold dedupe. revert l. induction fuel as [| fuel IH]; intros l Hlen.
  - destruct l; [reflexivity | simpl in Hlen; lia].
  - destruct l as [| x rest]; [reflexivity |].
    cbn [dedupeLoop List.length].
    destruct (mergeFirstPair near merge (x :: rest)) as [l' |] eqn:Hm; [| reflexivity].
    pose proof (mergeFirstPair_length _ _ Hm) as Hl. cbn [List.length] in Hl.
    assert (Hl' : List.length l' = List.length rest) by lia.
    rewrite IH by (simpl in Hlen; lia).
    rewrite <- Hl'. reflexivity.
Qed.

Lemma mergeFirstPair_nonempty (l l' : list E) :
  mergeFirstPair near merge l = Some l' -> l' <> [].
Proof.
  destruct l as [| x rest]; simpl; [discriminate |].
  destruct (splitNear near x rest) as [[[pre y] post] |].
  - intros Hm. inversion Hm. discriminate.
  - destruct (mergeFirstPair near merge rest); [| discriminate].
    intros Hm. inversion Hm. discriminate.
Qed.

Lemma dedupeLoop_nonempty (fuel : nat) (l : list E) :
  l <> [] -> dedupeLoop near merge fuel l <> [].
Proof.
  revert l. induction fuel as [| fuel IH]; intros l Hl; simpl; [exact Hl |].
  destruct (mergeFirstPair near merge l) as [l' |] eqn:Hm; [| exact Hl].
  apply IH. eapply mergeFirstPair_nonempty. exact Hm.
Qed.
End DedupeFacts.

(** The generic pass on integers: entries within 5 of an earlier one are
    merged into it. *)
Example dedupe_integers :
  dedupe (fun a b => Z.abs (a - b) <? 5)%Z (fun a _ => a) [10; 12; 30; 33; 50; 11]%Z
  = [10; 30; 50]%Z.
Proof. reflexivity. Qed.

Local Open Scope R_scope.


Lemma merge_percent (e1 e2 : Palette.Entry R) :
  Palette.percent (Palette.merge e1 e2) = Palette.percent e1 + Palette.percent e2.
Proof. reflexivity. Qed.

Lemma totalPercent_cons (e : Palette.Entry R) (l : list (Palette.Entry R)) :
  Palette.totalPercent (e :: l) = Palette.percent e + Palette.totalPercent l.
Proof. reflexivity. Qed.

Lemma totalPercent_app (l1 l2 : list (Palette.Entry R)) :
  Palette.totalPercent (l1 ++ l2) = Palette.totalPercent l1 + Palette.totalPercent l2.
Proof.
  induction l1 as [| e l1 IH].
  - cbn [app]. unfold Palette.totalPercent at 2. cbn. lra.
  - cbn [app]. rewrite !totalPercent_cons, IH. lra.
Qed.

Lemma mergeFirstPair_totalPercent (l l' : list (Palette.Entry R)) :
  mergeFirstPair Palette.near Palette.merge l = Some l' ->
  Palette.totalPercent l' = Palette.totalPercent l.
Proof.
  revert l'. induction l as [| x rest IH]; intros l' Hm; simpl in Hm; [discriminate |].
  destruct (splitNear Palette.near x rest) as [[[pre y] post] |] eqn:Hs.
  - inversion Hm; subst. apply splitNear_Some in Hs. destruct Hs as [-> _].
    rewrite !totalPercent_cons, merge_percent, !totalPercent_app, totalPercent_cons.
    lra.
  - destruct (mergeFirstPair Palette.near Palette.merge rest) as [rest' |] eqn:Hr;
      [| discriminate].
    inversion Hm; subst.
    rewrite !totalPercent_cons, (IH rest' eq_refl). reflexivity.
Qed.

Lemma dedupeLoop_totalPercent (fuel : nat) (l : list (Palette.Entry R)) :
  Palette.totalPercent (dedupeLoop Palette.near Palette.merge fuel l) =
  Palette.totalPercent l.
Proof.
  revert l. induction fuel as [| fuel IH]; intros l; simpl; [reflexivity |].
  destruct (mergeFirstPair Palette.near Palette.merge l) as [l' |] eqn:Hm;
    [| reflexivity].
  rewrite IH. apply mergeFirstPair_totalPercent. exact Hm.
Qed.

(** Merging loses no coverage and never empties a palette. *)
Lemma deduplicate_keeps_coverage (palette : list (Palette.Entry R)) :
  Palette.totalPercent (Palette.deduplicate palette) = Palette.totalPercent palette /\
  (palette <> [] -> Palette.deduplicate palette <> []).
Proof.
  split.
  - apply dedupeLoop_totalPercent.
  - apply dedupeLoop_nonempty.
Qed.


(** The chroma weighting makes the threshold test depend on the order: a
    grey and a colour of chroma 6 are 6 apart measured from the grey and less
    than 5 apart measured from the colour. *)
Lemma deltaE2000_threshold_one_sided :
  5 <= deltaE2000 (Build_LAB 0 0 0) (Build_LAB 0 6 0) /\
  deltaE2000 (Build_LAB 0 6 0) (Build_LAB 0 0 0) < 5.
Proof.
  assert (E6 : sqrt (6 * 6 + 0 * 0) = 6) by (apply sqrt_lem_1; lra).
  assert (E0 : sqrt (0 * 0 + 0 * 0) = 0) by (apply sqrt_lem_1; lra).
  split.
  - rewrite deltaE2000_real. unfold hueRadicand. cbn. rewrite E6, E0.
    assert (Eh : sqrt ((0 - 6) * (0 - 6) + (0 - 0) * (0 - 0) - (0 - 6) * (0 - 6)) = 0)
      by (apply sqrt_lem_1; lra).
    rewrite Eh.
    match goal with
    | |- _ <= sqrt ?x => replace x with (6 * 6) by (unfold Rsqr; lra)
    end.
    rewrite sqrt_square by lra. lra.
  - rewrite deltaE2000_real. unfold hueRadicand. cbn. rewrite E6, E0.
    assert (Eh : sqrt ((6 - 0) * (6 - 0) + (0 - 0) * (0 - 0) - (6 - 0) * (6 - 0)) = 0)
      by (apply sqrt_lem_1; lra).
    rewrite Eh.
    match goal with
    | |- sqrt ?x < _ => replace x with ((600 / 127) * (600 / 127)) by (unfold Rsqr; lra)
    end.
    rewrite sqrt_square by lra. lra.
Qed.

(** *** Bounds on [deltaE2000] from bounds on the coordinates *)











(** * The rest of the frontend library: proofs *)

(** ** [luminance] *)

Lemma Rleb_true (x y : R) : x <= y -> Rleb x y = true.
Proof. intros H. unfold Rleb. destruct (Rle_dec x y); [reflexivity | contradiction]. Qed.

Lemma Rleb_false (x y : R) : y < x -> Rleb x y = false.
Proof. intros H. unfold Rleb. destruct (Rle_dec x y); [lra | reflexivity]. Qed.

Lemma luminanceChannel_linear (v : R) :
  v / 255 <= 0.03928 -> luminanceChannel v = v / 255 / 12.92.
Proof.
  intros Hv. unfold luminanceChannel. cbn -[Q2R]. rewrite Q2R_int.
  rewrite Rleb_true by exact Hv. reflexivity.
Qed.

Lemma luminanceChannel_pow (v : R) :
  0.03928 < v / 255 ->
  luminanceChannel v = Rpower ((v / 255 + 0.055) / 1.055) 2.4.
Proof.
  intros Hv. unfold luminanceChannel. cbn -[Q2R]. rewrite Q2R_int.
  rewrite Rleb_false by exact Hv.
  apply Rpow_js_pos. apply Rdiv_lt_0_compat; lra.
Qed.

(** On an integer channel the decoding of [luminance] and that of
    [rgbToLab] take the same branch: no integer divided by 255 falls
    between their thresholds 0.03928 and 0.04045. *)
Lemma luminanceChannel_gammaCorrect (z : Z) :
  luminanceChannel (IZR z) = gammaCorrect (IZR z / 255).
Proof.
  destruct (Z_le_gt_dec z 10) as [H | H].
  - apply IZR_le in H.
    rewrite luminanceChannel_linear by lra.
    rewrite gammaCorrect_real_linear by lra. reflexivity.
  - assert (H' : (11 <= z)%Z) by lia. apply IZR_le in H'.
    rewrite luminanceChannel_pow by lra.
    rewrite gammaCorrect_real_pow by lra. reflexivity.
Qed.

Lemma luminance_real (r g b : R) :
  luminance r g b =
  0.2126 * luminanceChannel r + 0.7152 * luminanceChannel g + 0.0722 * luminanceChannel b.
Proof. reflexivity. Qed.

(** A decoded channel lies in [0, 1]. *)
Lemma luminanceChannel_range (v : R) :
  0 <= v <= 255 -> 0 <= luminanceChannel v <= 1.
Proof.
  intros [H0 H255].
  destruct (Rle_lt_dec (v / 255) 0.03928) as [Hl | Hp].
  - rewrite luminanceChannel_linear by exact Hl. lra.
  - rewrite luminanceChannel_pow by exact Hp.
    assert (Hu : 0 < (v / 255 + 0.055) / 1.055 <= 1) by (split; lra).
    split.
    + left. apply exp_pos.
    + assert (H1 : Rpower 1 2.4 = 1)
        by (unfold Rpower; rewrite ln_1, Rmult_0_r; apply exp_0).
      rewrite <- H1. apply Rle_Rpower_l; lra.
Qed.

(** The decoding does not decrease from one integer channel to a larger
    one. *)
Lemma luminanceChannel_mono (a b : Z) :
  (a <= b)%Z -> luminanceChannel (IZR a) <= luminanceChannel (IZR b).
Proof.
  intros Hab.
  destruct (Z_le_gt_dec b 10) as [Hb | Hb].
  - assert (Ha : (a <= 10)%Z) by lia.
    apply IZR_le in Hab. apply IZR_le in Ha. apply IZR_le in Hb.
    rewrite !luminanceChannel_linear by lra. lra.
  - assert (Hb' : (11 <= b)%Z) by lia. apply IZR_le in Hb'.
    assert (H11 : 0.0033 < luminanceChannel (IZR 11)).
    { rewrite luminanceChannel_gammaCorrect.
      apply (gammaCorrect_bounds (11 / 255) 0.0033 1); lra. }
    assert (Hmono : luminanceChannel (IZR 11) <= luminanceChannel (IZR b)).
    { rewrite !luminanceChannel_pow by lra.
      apply Rle_Rpower_l; [lra |]. split; [| lra].
      apply Rdiv_lt_0_compat; lra. }
    destruct (Z_le_gt_dec a 10) as [Ha | Ha].
    + apply IZR_le in Ha. rewrite (luminanceChannel_linear (IZR a)) by lra. lra.
    + assert (Ha' : (11 <= a)%Z) by lia. apply IZR_le in Ha'. apply IZR_le in Hab.
      rewrite !luminanceChannel_pow by lra.
      apply Rle_Rpower_l; [lra |]. split; [| lra].
      apply Rdiv_lt_0_compat; lra.
Qed.

(** X1.  For channels between 0 and 255 the relative luminance lies between
    0 and 1 (exact arithmetic). *)
Theorem luminance_within_unit (r g b : R) :
  0 <= r <= 255 -> 0 <= g <= 255 -> 0 <= b <= 255 ->
  0 <= luminance r g b <= 1.
Proof.
  intros Hr Hg Hb. rewrite luminance_real.
  pose proof (luminanceChannel_range r Hr).
  pose proof (luminanceChannel_range g Hg).
  pose proof (luminanceChannel_range b Hb).
  lra.
Qed.

Lemma luminance_within_unit_witness : 0 <= luminance 255 165 0 <= 1.
Proof. apply (luminance_within_unit 255 165 0); lra. Defined.

(** X2.  On integer channels the luminance is monotone: raising any channel
    never lowers it (exact arithmetic). *)
Theorem luminance_monotone (r g b r' g' b' : Z) :
  (r <= r')%Z -> (g <= g')%Z -> (b <= b')%Z ->
  luminance (IZR r) (IZR g) (IZR b) <= luminance (IZR r') (IZR g') (IZR b').
Proof.
  intros Hr Hg Hb. rewrite !luminance_real.
  pose proof (luminanceChannel_mono r r' Hr).
  pose proof (luminanceChannel_mono g g' Hg).
  pose proof (luminanceChannel_mono b b' Hb).
  lra.
Qed.

Lemma luminance_monotone_witness :
  luminance (IZR 10) (IZR 0) (IZR 200) <= luminance (IZR 11) (IZR 0) (IZR 255).
Proof. apply (luminance_monotone 10 0 200 11 0 255); lia. Defined.

(** X3.  [luminance] tests its channels against 0.03928 and [rgbToLab]
    against 0.04045, but on integer channels the two decode alike: the
    luminance is the weighted sum of the values [rgbToLab] decodes. *)
Theorem luminance_decodes_as_rgbToLab (r g b : Z) :
  luminance (IZR r) (IZR g) (IZR b) =
  0.2126 * gammaCorrect (IZR r / 255) +
  0.7152 * gammaCorrect (IZR g / 255) +
  0.0722 * gammaCorrect (IZR b / 255).
Proof. rewrite luminance_real, !luminanceChannel_gammaCorrect. reflexivity. Qed.

(** ** [getTextColor] *)

Lemma getTextColor_real (s : string) (r g b : Z) :
  hexToRgb s = Ok {| rgb_r := r; rgb_g := g; rgb_b := b |} ->
  getTextColor (num := R) s =
  Ok (if Rgtb (luminance (IZR r) (IZR g) (IZR b)) 0.5 then black else white).
Proof.
  intros Hs. unfold getTextColor. rewrite Hs. cbn [rgb_r rgb_g rgb_b].
  rewrite !ofInt_real. reflexivity.
Qed.

(** X4.  [getTextColor] throws the error of [hexToRgb] on exactly the
    malformed strings and answers black or white on every well-formed one,
    in every reading of numbers. *)
Theorem getTextColor_throws_exactly_malformed
  (num : Type) (N : JsNumber num) (O : JsOrder num) (s : string) :
  (getTextColor (num := num) s = Throw ("Invalid hex color: " ++ s) <-> ~ wellFormedHex s) /\
  (wellFormedHex s ->
   getTextColor (num := num) s = Ok black \/ getTextColor (num := num) s = Ok white).
Proof.
  unfold getTextColor.
  destruct (hexPatternExec s) as [gs |] eqn:Hgs.
  - assert (Hwf : wellFormedHex s)
      by (apply hexPatternExec_wellFormed; exists gs; exact Hgs).
    destruct (parseGroups_total s _ Hgs)
      as (c1 & c2 & c3 & c4 & c5 & c6 & _ & Hp & _).
    rewrite (hexToRgb_of_match s _ _ _ _ Hgs Hp).
    split.
    + split; [discriminate | contradiction].
    + intros _.
      match goal with
      | |- context [if ?c then black else white] => destruct c
      end; [left | right]; reflexivity.
  - assert (Hnwf : ~ wellFormedHex s) by (apply hexPatternExec_None; exact Hgs).
    assert (Hrgb : hexToRgb s = Throw ("Invalid hex color: " ++ s))
      by (unfold hexToRgb; rewrite Hgs; reflexivity).
    rewrite Hrgb. split; [split; auto | contradiction].
Qed.

(** X5.  A background at least as bright in every channel as one that gets
    black text gets black text too (exact arithmetic). *)
Theorem getTextColor_monotone (s s' : string) (r g b r' g' b' : Z) :
  hexToRgb s = Ok {| rgb_r := r; rgb_g := g; rgb_b := b |} ->
  hexToRgb s' = Ok {| rgb_r := r'; rgb_g := g'; rgb_b := b' |} ->
  (r <= r')%Z -> (g <= g')%Z -> (b <= b')%Z ->
  getTextColor (num := R) s = Ok black ->
  getTextColor (num := R) s' = Ok black.
Proof.
  intros Hs Hs' Hr Hg Hb.
  rewrite (getTextColor_real s r g b Hs), (getTextColor_real s' r' g' b' Hs').
  assert (Hm : luminance (IZR r) (IZR g) (IZR b) <= luminance (IZR r') (IZR g') (IZR b')).
  { rewrite !luminance_real.
    pose proof (luminanceChannel_mono r r' Hr).
    pose proof (luminanceChannel_mono g g' Hg).
    pose proof (luminanceChannel_mono b b' Hb).
    lra. }
  unfold Rgtb.
  destruct (Rgt_dec (luminance (IZR r) (IZR g) (IZR b)) 0.5) as [H | H];
    [| discriminate].
  intros _.
  destruct (Rgt_dec (luminance (IZR r') (IZR g') (IZR b')) 0.5) as [H' | H'];
    [reflexivity | lra].
Qed.

Lemma luminanceChannel_187 : luminanceChannel (IZR 187) < 0.5.
Proof.
  rewrite luminanceChannel_gammaCorrect.
  apply (gammaCorrect_bounds (187 / 255) 0 0.5); lra.
Qed.

Lemma luminanceChannel_188 : 0.5 < luminanceChannel (IZR 188).
Proof.
  rewrite luminanceChannel_gammaCorrect.
  apply (gammaCorrect_bounds (188 / 255) 0.5 1); lra.
Qed.

(** X6.  On a grey background, all three channels equal to [v], the text is
    black from [v = 188] on and white below (exact arithmetic). *)
Theorem getTextColor_grey (s : string) (v : Z) :
  hexToRgb s = Ok {| rgb_r := v; rgb_g := v; rgb_b := v |} ->
  getTextColor (num := R) s = Ok (if (188 <=? v)%Z then black else white).
Proof.
  intros Hs. rewrite (getTextColor_real s v v v Hs). f_equal.
  assert (Hl : luminance (IZR v) (IZR v) (IZR v) = luminanceChannel (IZR v))
    by (rewrite luminance_real; lra).
  rewrite Hl.
  destruct (188 <=? v)%Z eqn:E.
  - apply Z.leb_le in E. rewrite Rgtb_true; [reflexivity |].
    pose proof (luminanceChannel_mono 188 v E). pose proof luminanceChannel_188. lra.
  - apply Z.leb_gt in E. rewrite Rgtb_false; [reflexivity |].
    assert (E' : (v <= 187)%Z) by lia.
    pose proof (luminanceChannel_mono v 187 E'). pose proof luminanceChannel_187. lra.
Qed.

Lemma getTextColor_bcbcbc : getTextColor (num := R) "#bcbcbc" = Ok black.
Proof.
  rewrite (getTextColor_real "#bcbcbc" 188 188 188 eq_refl).
  rewrite Rgtb_true; [reflexivity |].
  rewrite luminance_real. pose proof luminanceChannel_188. lra.
Qed.

Lemma getTextColor_monotone_witness :
  getTextColor (num := R) "#c0c0c0" = Ok black.
Proof.
  apply (getTextColor_monotone "#bcbcbc" "#c0c0c0" 188 188 188 192 192 192);
    try reflexivity; try lia.
  exact getTextColor_bcbcbc.
Defined.

Lemma getTextColor_grey_witness :
  getTextColor (num := R) "808080" = Ok (if (188 <=? 128)%Z then black else white).
Proof. apply (getTextColor_grey "808080" 128). reflexivity. Defined.

(** ** More on [hexToRgb] and [rgbToHex] *)

Lemma pairOk_all :
  forallb (fun c1 => forallb (pairOk c1) hexAlphabet) hexAlphabet = true.
Proof. vm_compute. reflexivity. Qed.

Lemma pairOk_hex (c1 c2 : ascii) :
  hexClass c1 = true -> hexClass c2 = true -> pairOk c1 c2 = true.
Proof.
  intros H1 H2. apply hexClass_alphabet in H1. apply hexClass_alphabet in H2.
  pose proof pairOk_all as Hall. rewrite forallb_forall in Hall.
  specialize (Hall c1 H1). rewrite forallb_forall in Hall. exact (Hall c2 H2).
Qed.

Lemma pairOk_facts (c1 c2 : ascii) :
  hexClass c1 = true -> hexClass c2 = true ->
  pairValue (upperChar c1) (upperChar c2) = pairValue c1 c2 /\
  pairValue (lowerChar c1) (lowerChar c2) = pairValue c1 c2 /\
  hexClass (upperChar c1) = true /\ hexClass (lowerChar c1) = true /\
  padByte (toString16 (pairValue c1 c2)) =
    String (lowerChar c1) (String (lowerChar c2) EmptyString).
Proof.
  intros H1 H2. pose proof (pairOk_hex c1 c2 H1 H2) as Hok. unfold pairOk in Hok.
  repeat (apply andb_prop in Hok; destruct Hok as [Hok ?]).
  repeat split;
    try (apply Z.eqb_eq; assumption); try assumption.
  apply String.eqb_eq. assumption.
Qed.

Lemma hexToRgb_sixOf (c1 c2 c3 c4 c5 c6 : ascii) :
  Forall (fun c => hexClass c = true) [c1; c2; c3; c4; c5; c6] ->
  hexToRgb (sixOf c1 c2 c3 c4 c5 c6) =
    Ok {| rgb_r := pairValue c1 c2; rgb_g := pairValue c3 c4; rgb_b := pairValue c5 c6 |} /\
  hexToRgb (String "#" (sixOf c1 c2 c3 c4 c5 c6)) =
    Ok {| rgb_r := pairValue c1 c2; rgb_g := pairValue c3 c4; rgb_b := pairValue c5 c6 |}.
Proof.
  intros Hall.
  assert (H1 : hexClass c1 = true) by (inversion Hall; assumption).
  assert (Hp : forall s, stripHash s = sixOf c1 c2 c3 c4 c5 c6 ->
               hexToRgb s = Ok {| rgb_r := pairValue c1 c2; rgb_g := pairValue c3 c4;
                                  rgb_b := pairValue c5 c6 |}).
  { intros s Hs.
    assert (Hexec : hexPatternExec s =
                    Some (String c1 (String c2 EmptyString),
                          String c3 (String c4 EmptyString),
                          String c5 (String c6 EmptyString))).
    { apply hexPatternExec_Some. exists c1, c2, c3, c4, c5, c6.
      split; [exact Hs |]. split; [reflexivity | exact Hall]. }
    apply (hexToRgb_of_match _ _ _ _ _ Hexec).
    repeat match goal with
           | H : Forall _ (_ :: _) |- _ => inversion H; subst; clear H
           end.
    destruct (parseInt16_pair c1 c2) as [P1 _]; try assumption.
    destruct (parseInt16_pair c3 c4) as [P2 _]; try assumption.
    destruct (parseInt16_pair c5 c6) as [P3 _]; try assumption.
    unfold parseGroups. rewrite P1, P2, P3. reflexivity. }
  split; apply Hp.
  - apply stripHash_sixOf; [exact H1 | left; reflexivity].
  - reflexivity.
Qed.

Lemma hexToRgb_Ok_inv (s : string) (c : RGB) :
  hexToRgb s = Ok c ->
  exists c1 c2 c3 c4 c5 c6,
    (s = sixOf c1 c2 c3 c4 c5 c6 \/ s = String "#" (sixOf c1 c2 c3 c4 c5 c6)) /\
    Forall (fun c => hexClass c = true) [c1; c2; c3; c4; c5; c6] /\
    c = {| rgb_r := pairValue c1 c2; rgb_g := pairValue c3 c4; rgb_b := pairValue c5 c6 |} /\
    exists gs, hexPatternExec s = Some gs /\
               parseGroups gs = Some (pairValue c1 c2, pairValue c3 c4, pairValue c5 c6).
Proof.
  intros Hs. unfold hexToRgb in Hs.
  destruct (hexPatternExec s) as [gs |] eqn:Hgs; [| discriminate].
  destruct (parseGroups_total s _ Hgs) as (c1 & c2 & c3 & c4 & c5 & c6 & Hstrip & Hp & _).
  rewrite Hp in Hs. inversion Hs; subst c. clear Hs.
  pose proof Hgs as Hgs'. apply hexPatternExec_Some in Hgs'.
  destruct Hgs' as (d1 & d2 & d3 & d4 & d5 & d6 & Hstrip' & _ & Hall).
  rewrite Hstrip in Hstrip'. inversion Hstrip'; subst.
  assert (H1 : hexClass d1 = true) by (inversion Hall; assumption).
  exists d1, d2, d3, d4, d5, d6. split.
  - apply (stripHash_sixOf s d1 d2 d3 d4 d5 d6 H1). exact Hstrip.
  - split; [exact Hall |]. split; [reflexivity |]. exists gs. split; [reflexivity | assumption].
Qed.

Lemma Forall_hexClass_map (f : ascii -> ascii) (c1 c2 c3 c4 c5 c6 : ascii) :
  (forall c, hexClass c = true -> hexClass (f c) = true) ->
  Forall (fun c => hexClass c = true) [c1; c2; c3; c4; c5; c6] ->
  Forall (fun c => hexClass c = true) [f c1; f c2; f c3; f c4; f c5; f c6].
Proof.
  intros Hf Hall.
  repeat match goal with
         | H : Forall _ (_ :: _) |- _ => inversion H; subst; clear H
         end.
  repeat (apply Forall_cons; [apply Hf; assumption |]). apply Forall_nil.
Qed.

Lemma hexToRgb_variants (s : string) :
  wellFormedHex s ->
  hexToRgb (mapString upperChar s) = hexToRgb s /\
  hexToRgb (mapString lowerChar s) = hexToRgb s /\
  hexToRgb (stripHash s) = hexToRgb s /\
  hexToRgb (String "#" (stripHash s)) = hexToRgb s /\
  exists c, hexToRgb s = Ok c.
Proof.
  intros Hwf. apply hexPatternExec_wellFormed in Hwf. destruct Hwf as [gs Hgs].
  apply hexPatternExec_Some in Hgs.
  destruct Hgs as (c1 & c2 & c3 & c4 & c5 & c6 & Hstrip & _ & Hall).
  assert (H1 : hexClass c1 = true) by (inversion Hall; assumption).
  pose proof (hexToRgb_sixOf c1 c2 c3 c4 c5 c6 Hall) as [Hplain Hhash].
  assert (Hup : Forall (fun c => hexClass c = true)
                  [upperChar c1; upperChar c2; upperChar c3;
                   upperChar c4; upperChar c5; upperChar c6]).
  { apply Forall_hexClass_map; [| exact Hall].
    intros c Hc. apply (pairOk_facts c c Hc Hc). }
  assert (Hlo : Forall (fun c => hexClass c = true)
                  [lowerChar c1; lowerChar c2; lowerChar c3;
                   lowerChar c4; lowerChar c5; lowerChar c6]).
  { apply Forall_hexClass_map; [| exact Hall].
    intros c Hc. apply (pairOk_facts c c Hc Hc). }
  pose proof (hexToRgb_sixOf _ _ _ _ _ _ Hup) as [Hup1 Hup2].
  pose proof (hexToRgb_sixOf _ _ _ _ _ _ Hlo) as [Hlo1 Hlo2].
  repeat match goal with
         | H : Forall _ (_ :: _) |- _ => inversion H; subst; clear H
         end.
  destruct (pairOk_facts c1 c2) as (U1 & L1 & _); try assumption.
  destruct (pairOk_facts c3 c4) as (U2 & L2 & _); try assumption.
  destruct (pairOk_facts c5 c6) as (U3 & L3 & _); try assumption.
  rewrite U1, U2, U3 in Hup1, Hup2. rewrite L1, L2, L3 in Hlo1, Hlo2.
  rewrite Hstrip.
  apply (stripHash_sixOf s c1 c2 c3 c4 c5 c6 H1) in Hstrip.
  destruct Hstrip as [-> | ->]; cbn [mapString sixOf];
    change (upperChar "#") with "#"%char; change (lowerChar "#") with "#"%char;
    fold (sixOf (upperChar c1) (upperChar c2) (upperChar c3)
                (upperChar c4) (upperChar c5) (upperChar c6));
    fold (sixOf (lowerChar c1) (lowerChar c2) (lowerChar c3)
                (lowerChar c4) (lowerChar c5) (lowerChar c6));
    fold (sixOf c1 c2 c3 c4 c5 c6);
    rewrite ?Hup1, ?Hup2, ?Hlo1, ?Hlo2, ?Hplain, ?Hhash;
    repeat split; eexists; reflexivity.
Qed.

(** X7.  [hexToRgb] reads the same colour whatever the case of the digits
    and whether or not [#] leads the string. *)
Theorem hexToRgb_ignores_case_and_hash (s : string) :
  wellFormedHex s ->
  hexToRgb (mapString upperChar s) = hexToRgb s /\
  hexToRgb (mapString lowerChar s) = hexToRgb s /\
  hexToRgb (stripHash s) = hexToRgb s /\
  hexToRgb (String "#" (stripHash s)) = hexToRgb s /\
  exists c, hexToRgb s = Ok c.
Proof. exact (hexToRgb_variants s). Qed.

Lemma hexToRgb_ignores_case_and_hash_witness :
  hexToRgb (mapString upperChar "#ffa500") = hexToRgb "#ffa500" /\
  hexToRgb (mapString lowerChar "#ffa500") = hexToRgb "#ffa500" /\
  hexToRgb (stripHash "#ffa500") = hexToRgb "#ffa500" /\
  hexToRgb (String "#" (stripHash "#ffa500")) = hexToRgb "#ffa500" /\
  exists c, hexToRgb "#ffa500" = Ok c.
Proof.
  apply (hexToRgb_ignores_case_and_hash "#ffa500").
  apply hexPatternExec_wellFormed. eexists. reflexivity.
Defined.

(** X8.  [rgbToHex] after [hexToRgb] puts a well-formed string in one
    form: [#] and the six digits in lower case. *)
Theorem rgbToHex_hexToRgb_canonical (s : string) (r g b : Z) :
  hexToRgb s = Ok {| rgb_r := r; rgb_g := g; rgb_b := b |} ->
  rgbToHex (IZR r) (IZR g) (IZR b) = String "#" (mapString lowerChar (stripHash s)).
Proof.
  intros Hs. apply hexToRgb_Ok_inv in Hs.
  destruct Hs as (c1 & c2 & c3 & c4 & c5 & c6 & Hshape & Hall & Hc & _).
  inversion Hc; subst r g b. clear Hc.
  assert (H1 : hexClass c1 = true) by (inversion Hall; assumption).
  assert (Hstrip : stripHash s = sixOf c1 c2 c3 c4 c5 c6)
    by (apply stripHash_sixOf; assumption).
  rewrite Hstrip.
  repeat match goal with
         | H : Forall _ (_ :: _) |- _ => inversion H; subst; clear H
         end.
  destruct (pairOk_facts c1 c2) as (_ & _ & _ & _ & B1); try assumption.
  destruct (pairOk_facts c3 c4) as (_ & _ & _ & _ & B2); try assumption.
  destruct (pairOk_facts c5 c6) as (_ & _ & _ & _ & B3); try assumption.
  unfold rgbToHex, hexByte. cbn [map String.concat].
  rewrite !Math_round_IZR, B1, B2, B3. reflexivity.
Qed.

Lemma rgbToHex_hexToRgb_canonical_witness :
  rgbToHex (IZR 255) (IZR 165) (IZR 0) =
  String "#" (mapString lowerChar (stripHash "FFA500")).
Proof. apply (rgbToHex_hexToRgb_canonical "FFA500" 255 165 0). reflexivity. Defined.

(** ** A colour of the table is found exactly *)

Lemma sameTriple_eq (t u : Z * Z * Z) : sameTriple t u = true <-> t = u.
Proof.
  destruct t as [[a b] c], u as [[a' b'] c']. unfold sameTriple.
  rewrite !andb_true_iff, !Z.eqb_eq. split.
  - intros [[-> ->] ->]. reflexivity.
  - intros H. inversion H. auto.
Qed.

Lemma sqDistance_zero (r g b : Z) (c : ColorName) :
  (sqDistance r g b c = 0)%Z <-> rgb c = (r, g, b).
Proof.
  unfold sqDistance. destruct (rgb c) as [[c0 c1] c2]. split.
  - intros H.
    pose proof (Z.square_nonneg (r - c0)) as S0.
    pose proof (Z.square_nonneg (g - c1)) as S1.
    pose proof (Z.square_nonneg (b - c2)) as S2.
    assert (E0 : ((r - c0) * (r - c0) = 0)%Z) by lia.
    assert (E1 : ((g - c1) * (g - c1) = 0)%Z) by lia.
    assert (E2 : ((b - c2) * (b - c2) = 0)%Z) by lia.
    apply Z.mul_eq_0 in E0, E1, E2.
    f_equal; [f_equal |]; lia.
  - intros H. inversion H. subst. lia.
Qed.

Lemma rgbDistance_zero (r g b : Z) (c : ColorName) :
  rgbDistance (num := R) r g b c = 0 <-> rgb c = (r, g, b).
Proof.
  rewrite rgbDistance_real, <- sqDistance_zero.
  pose proof (sqDistance_nonneg r g b c) as Hnn. split.
  - intros H. apply sqrt_eq_0 in H; [| apply IZR_le; exact Hnn].
    apply eq_IZR. exact H.
  - intros ->. apply sqrt_0.
Qed.

Lemma rgbDistance_nonneg (r g b : Z) (c : ColorName) :
  0 <= rgbDistance (num := R) r g b c.
Proof. rewrite rgbDistance_real. apply sqrt_pos. Qed.

Lemma find_first {A : Type} (f : A -> bool) (l : list A) (i : nat) (c : A) :
  nth_error l i = Some c -> f c = true ->
  (forall j e, (j < i)%nat -> nth_error l j = Some e -> f e = false) ->
  find f l = Some c.
Proof.
  revert i. induction l as [| x l IH]; intros i Hn Hc Hbefore.
  - destruct i; discriminate.
  - destruct i as [| i].
    + cbn in Hn. inversion Hn; subst x. cbn. rewrite Hc. reflexivity.
    + cbn. rewrite (Hbefore 0%nat x); [| lia | reflexivity].
      apply (IH i); [exact Hn | exact Hc |].
      intros j e Hj He. apply (Hbefore (S j) e); [lia | exact He].
Qed.

Lemma lookup_exact (s : string) (r g b : Z) (e : ColorName) :
  hexToRgb s = Ok {| rgb_r := r; rgb_g := g; rgb_b := b |} ->
  In e colorNames -> rgb e = (r, g, b) ->
  exists c,
    findNearestColorName (num := R) s = Some c /\
    findNearestScan (num := R) s = Some (Some 0, Some c) /\
    rgb c = (r, g, b) /\
    firstWithTriple (r, g, b) = Some c.
Proof.
  intros Hs Hin Hrgb. apply hexToRgb_Ok_inv in Hs.
  destruct Hs as (c1 & c2 & c3 & c4 & c5 & c6 & _ & _ & Hc & gs & Hgs & Hp).
  inversion Hc; subst r g b. clear Hc.
  destruct (findNearestColorName_of_match s _ _ _ _ Hgs Hp) as (c & Hscan & Hname & Hmin).
  destruct Hmin as (i & Hi & Hle & Hlt).
  destruct (In_nth_error _ _ Hin) as [k Hk].
  pose proof (Hle k e Hk) as Hce.
  apply rgbDistance_zero in Hrgb. rewrite Hrgb in Hce.
  pose proof (rgbDistance_nonneg (pairValue c1 c2) (pairValue c3 c4) (pairValue c5 c6) c) as Hnn.
  assert (Hzero : rgbDistance (num := R) (pairValue c1 c2) (pairValue c3 c4)
                    (pairValue c5 c6) c = 0) by lra.
  exists c. split; [exact Hname |]. split; [rewrite Hscan, Hzero; reflexivity |].
  split; [apply rgbDistance_zero; exact Hzero |].
  unfold firstWithTriple. apply (find_first _ _ i).
  - exact Hi.
  - apply sameTriple_eq, rgbDistance_zero. exact Hzero.
  - intros j e' Hj He'. specialize (Hlt j e' Hj He'). rewrite Hzero in Hlt.
    destruct (sameTriple (rgb e') (pairValue c1 c2, pairValue c3 c4, pairValue c5 c6)) eqn:E;
      [| reflexivity].
    apply sameTriple_eq, rgbDistance_zero in E. lra.
Qed.

(** X9.  A colour that the table holds is never mapped to another colour:
    the lookup returns, at distance 0, the first entry of the table with
    exactly the channels of the input. *)
Theorem findNearestColorName_exact (s : string) (r g b : Z) (e : ColorName) :
  hexToRgb s = Ok {| rgb_r := r; rgb_g := g; rgb_b := b |} ->
  In e colorNames -> rgb e = (r, g, b) ->
  exists c,
    findNearestColorName (num := R) s = Some c /\
    findNearestScan (num := R) s = Some (Some 0, Some c) /\
    rgb c = (r, g, b) /\
    firstWithTriple (r, g, b) = Some c.
Proof. exact (lookup_exact s r g b e). Qed.

Lemma findNearestColorName_exact_witness :
  exists c,
    findNearestColorName (num := R) "#808080" = Some c /\
    findNearestScan (num := R) "#808080" = Some (Some 0, Some c) /\
    rgb c = (128, 128, 128)%Z /\
    firstWithTriple (128, 128, 128)%Z = Some c.
Proof.
  apply (findNearestColorName_exact "#808080" 128 128 128
           {| name := "grey"; hex := "#808080"; rgb := (128, 128, 128)%Z |}).
  - reflexivity.
  - unfold colorNames. do 13 right. left. reflexivity.
  - reflexivity.
Defined.

Lemma entryOk_all : forallb entryOk colorNames = true.
Proof. vm_compute. reflexivity. Qed.

(** X10.  The table is consistent with the functions that read it: the
    [hex] field of every entry reads, by [hexToRgb], as its [rgb] field,
    and the lookup of that [hex] field returns an entry with the same
    [hex] and [rgb] fields (the first of the table, where two names share
    a colour). *)
Theorem colorNames_self_lookup (e : ColorName) :
  In e colorNames ->
  exists r g b c,
    rgb e = (r, g, b) /\
    hexToRgb (hex e) = Ok {| rgb_r := r; rgb_g := g; rgb_b := b |} /\
    findNearestColorName (num := R) (hex e) = Some c /\
    rgb c = rgb e /\ hex c = hex e /\
    firstWithTriple (rgb e) = Some c.
Proof.
  intros Hin. pose proof entryOk_all as Hall. rewrite forallb_forall in Hall.
  specialize (Hall e Hin). unfold entryOk in Hall.
  destruct (hexToRgb (hex e)) as [[r g b] | msg] eqn:Hhex; [| discriminate].
  destruct (firstWithTriple (rgb e)) as [e' |] eqn:Hfirst; [| discriminate].
  apply andb_prop in Hall. destruct Hall as [Ht Hh].
  apply sameTriple_eq in Ht. apply String.eqb_eq in Hh.
  unfold tripleOf in Ht. cbn [rgb_r rgb_g rgb_b] in Ht.
  destruct (lookup_exact (hex e) r g b e Hhex Hin (eq_sym Ht)) as (c & Hname & _ & Hrgb & Hf).
  exists r, g, b, c. split; [symmetry; exact Ht |]. split; [reflexivity |].
  split; [exact Hname |]. split; [congruence |].
  rewrite <- Ht in Hfirst. rewrite Hf in Hfirst. inversion Hfirst; subst e'.
  split; [exact Hh | reflexivity].
Qed.

Lemma colorNames_self_lookup_witness :
  exists r g b c,
    rgb {| name := "aqua"; hex := "#00FFFF"; rgb := (0, 255, 255)%Z |} = (r, g, b) /\
    hexToRgb (hex {| name := "aqua"; hex := "#00FFFF"; rgb := (0, 255, 255)%Z |}) =
      Ok {| rgb_r := r; rgb_g := g; rgb_b := b |} /\
    findNearestColorName (num := R)
      (hex {| name := "aqua"; hex := "#00FFFF"; rgb := (0, 255, 255)%Z |}) = Some c /\
    rgb c = rgb {| name := "aqua"; hex := "#00FFFF"; rgb := (0, 255, 255)%Z |} /\
    hex c = hex {| name := "aqua"; hex := "#00FFFF"; rgb := (0, 255, 255)%Z |} /\
    firstWithTriple (rgb {| name := "aqua"; hex := "#00FFFF"; rgb := (0, 255, 255)%Z |}) = Some c.
Proof.
  apply (colorNames_self_lookup {| name := "aqua"; hex := "#00FFFF"; rgb := (0, 255, 255)%Z |}).
  unfold colorNames. do 21 right. left. reflexivity.
Defined.

(** ** [rgbToHex] on channels that are not integers *)

Lemma Math_round_range (x : R) :
  - / 2 <= x < 255 + / 2 -> (0 <= Math_round x <= 255)%Z.
Proof.
  intros [Hlo Hhi]. unfold Math_round.
  pose proof (Zfloor_bound (x + / 2)) as [Hb1 Hb2].
  split.
  - apply Zfloor_lub. simpl. lra.
  - assert (H : (Zfloor (x + / 2) < 256)%Z).
    { apply lt_IZR. lra. }
    lia.
Qed.

(** X11.  [rgbToHex] rounds each channel to the nearest integer, halves
    upwards: for real channels in [-0.5, 255.5) the string is that of the
    rounded channels, and [hexToRgb] reads the rounded channels back. *)
Theorem rgbToHex_rounds (r g b : R) :
  - / 2 <= r < 255 + / 2 -> - / 2 <= g < 255 + / 2 -> - / 2 <= b < 255 + / 2 ->
  rgbToHex r g b =
    rgbToHex (IZR (Math_round r)) (IZR (Math_round g)) (IZR (Math_round b)) /\
  hexToRgb (rgbToHex r g b) =
    Ok {| rgb_r := Math_round r; rgb_g := Math_round g; rgb_b := Math_round b |}.
Proof.
  intros Hr Hg Hb.
  apply Math_round_range in Hr, Hg, Hb.
  assert (Hsame : rgbToHex r g b =
    rgbToHex (IZR (Math_round r)) (IZR (Math_round g)) (IZR (Math_round b))).
  { unfold rgbToHex, hexByte. cbn [map]. rewrite !Math_round_IZR. reflexivity. }
  split; [exact Hsame |]. rewrite Hsame.
  destruct (hexByte_channel _ Hr) as (c1 & c2 & E1 & _ & _ & Ha1 & Ha2 & V1).
  destruct (hexByte_channel _ Hg) as (c3 & c4 & E2 & _ & _ & Hb1 & Hb2 & V2).
  destruct (hexByte_channel _ Hb) as (c5 & c6 & E3 & _ & _ & Hc1 & Hc2 & V3).
  assert (Hs : rgbToHex (IZR (Math_round r)) (IZR (Math_round g)) (IZR (Math_round b)) =
               String "#" (sixOf c1 c2 c3 c4 c5 c6)).
  { unfold rgbToHex. cbn [map String.concat]. rewrite E1, E2, E3. reflexivity. }
  rewrite Hs.
  assert (Hall : Forall (fun c => hexClass c = true) [c1; c2; c3; c4; c5; c6])
    by (repeat (apply Forall_cons; [assumption |]); apply Forall_nil).
  destruct (hexToRgb_sixOf c1 c2 c3 c4 c5 c6 Hall) as [_ Hhash].
  rewrite Hhash, V1, V2, V3. reflexivity.
Qed.

Lemma rgbToHex_rounds_witness :
  rgbToHex (5 / 2) (- / 2) (1019 / 4) =
    rgbToHex (IZR (Math_round (5 / 2))) (IZR (Math_round (- / 2)))
             (IZR (Math_round (1019 / 4))) /\
  hexToRgb (rgbToHex (5 / 2) (- / 2) (1019 / 4)) =
    Ok {| rgb_r := Math_round (5 / 2); rgb_g := Math_round (- / 2);
          rgb_b := Math_round (1019 / 4) |}.
Proof. apply (rgbToHex_rounds (5 / 2) (- / 2) (1019 / 4)); lra. Defined.

(** ** More on [deltaE2000] over the reals *)

Lemma sqrt_zero_inv (x : R) : 0 <= x -> sqrt x = 0 -> x = 0.
Proof. intros Hx H. apply sqrt_eq_0; assumption. Qed.

Lemma Rsqr_zero_inv (x : R) : Rsqr x = 0 -> x = 0.
Proof. apply Rsqr_0_uniq. Qed.

Lemma div_zero_inv (x w : R) : 0 < w -> x / w = 0 -> x = 0.
Proof.
  intros Hw H. replace x with (x / w * w) by (field; lra). rewrite H. ring.
Qed.

(** X12.  Over the reals [deltaE2000] is 0 for two equal colours and for no
    other pair. *)
Theorem deltaE2000_zero_iff_equal (p q : LAB R) :
  deltaE2000 p q = 0 <-> p = q.
Proof.
  split; [| intros ->; apply deltaE2000_self].
  intros H. rewrite deltaE2000_real in H. cbv zeta in H.
  rewrite <- ?(chroma_real p), <- ?(chroma_real q) in H.
  pose proof (chroma_nonneg p) as Hc.
  pose proof (hueRadicand_nonneg_real p q) as Hh.
  match type of H with
  | sqrt (Rsqr ?x + Rsqr ?y + Rsqr ?z) = 0 =>
      pose proof (Rle_0_sqr x) as Sx; pose proof (Rle_0_sqr y) as Sy;
      pose proof (Rle_0_sqr z) as Sz;
      assert (Hsum : Rsqr x + Rsqr y + Rsqr z = 0) by (apply sqrt_zero_inv; [lra | exact H]);
      assert (Ex : x = 0) by (apply Rsqr_zero_inv; lra);
      assert (Ey : y = 0) by (apply Rsqr_zero_inv; lra);
      assert (Ez : z = 0) by (apply Rsqr_zero_inv; lra)
  end.
  clear H Hsum Sx Sy Sz.
  apply div_zero_inv in Ey; [| lra]. apply div_zero_inv in Ez; [| lra].
  apply sqrt_zero_inv in Ez; [| exact Hh].
  rewrite hueRadicand_real, Ey in Ez.
  pose proof (Rle_0_sqr (lab_a p - lab_a q)) as Sa.
  pose proof (Rle_0_sqr (lab_b p - lab_b q)) as Sb.
  unfold Rsqr in Sa, Sb.
  assert (Ea : lab_a p - lab_a q = 0) by (apply Rsqr_0_uniq; unfold Rsqr; lra).
  assert (Eb : lab_b p - lab_b q = 0) by (apply Rsqr_0_uniq; unfold Rsqr; lra).
  destruct p as [pl pa pb], q as [ql qa qb]. cbn [lab_l lab_a lab_b] in *.
  f_equal; lra.
Qed.

(** ** The range of the lightness computed by [rgbToLab] *)

Lemma gammaCorrect_range (c : R) : 0 <= c <= 1 -> 0 <= gammaCorrect c <= 1.
Proof.
  intros [H0 H1].
  destruct (Rle_lt_dec c 0.04045) as [Hl | Hp].
  - rewrite gammaCorrect_real_linear by exact Hl. lra.
  - rewrite gammaCorrect_real_pow by exact Hp.
    assert (Hu : 0 < (c + 0.055) / 1.055 <= 1) by (split; lra).
    split.
    + left. apply exp_pos.
    + assert (E1 : Rpower 1 2.4 = 1)
        by (unfold Rpower; rewrite ln_1, Rmult_0_r; apply exp_0).
      rewrite <- E1. apply Rle_Rpower_l; lra.
Qed.

Lemma labCurve_range (t : R) :
  0 <= t <= 1.0000001 -> 16 / 116 <= labCurve t < 1.000001.
Proof.
  intros [H0 H1].
  destruct (Rle_lt_dec t 0.008856) as [Hl | Hp].
  - rewrite labCurve_real_linear by exact Hl. lra.
  - destruct (labCurve_bounds t t t 0.2 1.000001) as [Hlo Hhi]; lra.
Qed.

(** X14.  For channels between 0 and 255 the lightness that [rgbToLab]
    returns is at least 0 and below 100.0002; it is not bounded by 100,
    since the row of the matrix that gives Y sums to 1.0000001: white has a
    lightness above 100. *)
Theorem rgbToLab_lightness_range (r g b : R) :
  0 <= r <= 255 -> 0 <= g <= 255 -> 0 <= b <= 255 ->
  0 <= lab_l (rgbToLab r g b) < 100.0002 /\
  100 < lab_l (rgbToLab 255 255 255).
Proof.
  intros Hr Hg Hb. rewrite !rgbToLab_linear. unfold labOfLinear. cbn [lab_l].
  split.
  - assert (Gr : 0 <= gammaCorrect (r / 255) <= 1) by (apply gammaCorrect_range; lra).
    assert (Gg : 0 <= gammaCorrect (g / 255) <= 1) by (apply gammaCorrect_range; lra).
    assert (Gb : 0 <= gammaCorrect (b / 255) <= 1) by (apply gammaCorrect_range; lra).
    match goal with
    | |- _ <= 116 * labCurve ?y - 16 < _ =>
        assert (Hy : 0 <= y <= 1.0000001) by lra;
        pose proof (labCurve_range y Hy) as Hf
    end.
    lra.
  - replace (255 / 255) with 1 by lra. rewrite gammaCorrect_one.
    destruct (labCurve_bounds ((1 * 0.2126729 + 1 * 0.7151522 + 1 * 0.0721750) / 1)
                1.0000001 1.0000001 1 1.000001) as [Hlo _]; lra.
Qed.

Lemma rgbToLab_lightness_range_witness :
  0 <= lab_l (rgbToLab 12 200 255) < 100.0002 /\
  100 < lab_l (rgbToLab 255 255 255).
Proof. apply (rgbToLab_lightness_range 12 200 255); lra. Defined.

(** ** imageUtils.ts over the reals *)


Lemma Rgtb_true_iff (x y : R) : Rgtb x y = true <-> y < x.
Proof.
  unfold Rgtb. destruct (Rgt_dec x y) as [H | H]; split; intros H';
    try reflexivity; try discriminate; lra.
Qed.


Lemma compressImage_dimensions_real (w h mw mh : R) :
  0 < w -> 0 < h ->
  compressImage_dimensions w h mw mh =
    if Rgtb w mw || Rgtb h mh
    then if Rgtb w h then (Rmin w mw, Rmin w mw * h / w) else (Rmin h mh * w / h, Rmin h mh)
    else (w, h).
Proof.
  intros Hw Hh. unfold compressImage_dimensions. cbn.
  destruct (Rgtb w mw || Rgtb h mh); [| reflexivity].
  destruct (Rgtb w h); f_equal; field; lra.
Qed.

(** X18.  With the same limit for the width and the height, as in every
    call of the source, the size that [compressImage] computes fits the
    limit in both directions. *)
Theorem compressImage_fits_square (w h m : R) :
  0 < w -> 0 < h -> 0 <= m ->
  fst (compressImage_dimensions w h m m) <= m /\
  snd (compressImage_dimensions w h m m) <= m.
Proof.
  intros Hw Hh Hm. rewrite compressImage_dimensions_real by assumption.
  destruct (Rgtb w m || Rgtb h m) eqn:Hbig.
  - destruct (Rgtb w h) eqn:Hland; cbn [fst snd].
    + apply Rgtb_true_iff in Hland.
      pose proof (Rmin_r w m) as Hmin.
      assert (Hpos : 0 <= Rmin w m) by (apply Rmin_glb; lra).
      split; [exact Hmin |].
      apply (Rmult_le_reg_r w); [exact Hw |].
      replace (Rmin w m * h / w * w) with (Rmin w m * h) by (field; lra). nra.
    + assert (Hport : w <= h).
      { destruct (Rle_lt_dec w h) as [H | H]; [exact H |].
        apply Rgtb_true_iff in H. congruence. }
      pose proof (Rmin_r h m) as Hmin.
      assert (Hpos : 0 <= Rmin h m) by (apply Rmin_glb; lra).
      split; [| exact Hmin].
      apply (Rmult_le_reg_r h); [exact Hh |].
      replace (Rmin h m * w / h * h) with (Rmin h m * w) by (field; lra). nra.
  - apply orb_false_elim in Hbig. destruct Hbig as [H1 H2]. cbn [fst snd].
    split.
    + destruct (Rle_lt_dec w m) as [H | H]; [exact H |].
      apply Rgtb_true_iff in H. congruence.
    + destruct (Rle_lt_dec h m) as [H | H]; [exact H |].
      apply Rgtb_true_iff in H. congruence.
Qed.

Lemma compressImage_fits_square_witness :
  fst (compressImage_dimensions 3024 4032 1920 1920) <= 1920 /\
  snd (compressImage_dimensions 3024 4032 1920 1920) <= 1920.
Proof. apply (compressImage_fits_square 3024 4032 1920); lra. Defined.



(** ** ImageWithLabels.tsx over the reals *)

Lemma Rtruthy_true (x : R) : x <> 0 -> Rtruthy x = true.
Proof. intros H. unfold Rtruthy. destruct (Req_dec_T x 0); [contradiction | reflexivity]. Qed.

Lemma js_or_real_left (a b : R) : a <> 0 -> js_or a b = a.
Proof. intros H. unfold js_or. cbn. rewrite Rtruthy_true by exact H. reflexivity. Qed.

Lemma js_or_real_right (b : R) : js_or 0 b = b.
Proof.
  unfold js_or. cbn. unfold Rtruthy.
  destruct (Req_dec_T 0 0) as [_ | H]; [reflexivity | contradiction H; reflexivity].
Qed.

(** X22.  Without the analysed size (the props absent, or 0) the label
    effect takes the samples to be in the coordinates of the natural
    image. *)
Theorem samplePosition_without_analysed_size (width height : option R)
  (dw dh nw nh sx sy : R) :
  width = None \/ width = Some 0 -> height = None \/ height = Some 0 ->
  dw <> 0 -> nw <> 0 -> nh <> 0 ->
  samplePosition width height true
    {| size_width := dw; size_height := dh |}
    {| size_width := nw; size_height := nh |} sx sy =
  Some (sx * (dw / nw), sy * (dh / nh)).
Proof.
  intros Hwidth Hheight Hdw Hnw Hnh.
  assert (Ew : match width with Some w => js_or w (lit 0) | None => lit 0 end = 0).
  { destruct Hwidth as [-> | ->]; [cbn; lra |].
    rewrite js_or_real_right. cbn. lra. }
  assert (Eh : match height with Some h => js_or h (lit 0) | None => lit 0 end = 0).
  { destruct Hheight as [-> | ->]; [cbn; lra |].
    rewrite js_or_real_right. cbn. lra. }
  unfold samplePosition. rewrite Ew, Eh.
  cbn [size_width size_height negb orb js_truthy RealOrder].
  rewrite !Rtruthy_true by assumption. cbn [negb orb].
  rewrite !js_or_real_right.
  cbn. f_equal. f_equal; field; assumption.
Qed.

Lemma samplePosition_without_analysed_size_witness :
  samplePosition None (Some 0) true
    {| size_width := 390; size_height := 260 |}
    {| size_width := 1200; size_height := 800 |} 600 400 =
  Some (600 * (390 / 1200), 400 * (260 / 800)).
Proof.
  apply (samplePosition_without_analysed_size None (Some 0) 390 260 1200 800 600 400);
    [left; reflexivity | right; reflexivity | lra | lra | lra].
Defined.

Lemma Math_round_spec (x : R) (z : Z) :
  IZR z - / 2 <= x < IZR z + / 2 -> Math_round x = z.
Proof. intros [H1 H2]. unfold Math_round. apply Zfloor_eq. lra. Qed.

Lemma Math_round_bounds (x : R) :
  IZR (Math_round x) - / 2 <= x < IZR (Math_round x) + / 2.
Proof.
  unfold Math_round. pose proof (Zfloor_bound (x + / 2)) as [H1 H2]. lra.
Qed.

(** X23.  A click inside the displayed image is mapped by
    [handleImageClick] to a column between 0 and the natural width, both
    included, and to a row between 0 and the natural height: near the right
    edge, from a quarter of a pixel before it at the least, the column is the
    natural width itself, one past the last column of the image (and
    likewise for the rows). *)
Theorem handleImageClick_range (cx cy left top rw rh : R) (nw nh : Z) :
  0 < rw -> 0 < rh -> (0 < nw)%Z -> (0 < nh)%Z ->
  left <= cx <= left + rw -> top <= cy <= top + rh ->
  exists X Y : Z,
    handleImageClick cx cy left top rw rh (IZR nw) (IZR nh) = (IZR X, IZR Y) /\
    (0 <= X <= nw)%Z /\ (0 <= Y <= nh)%Z /\
    (IZR nw - / 4 <= (cx - left) * (IZR nw / rw) -> X = nw) /\
    (IZR nh - / 4 <= (cy - top) * (IZR nh / rh) -> Y = nh).
Proof.
  intros Hrw Hrh Hnw Hnh Hcx Hcy.
  apply IZR_lt in Hnw, Hnh.
  assert (Sx : 0 < IZR nw / rw) by (apply Rdiv_lt_0_compat; lra).
  assert (Sy : 0 < IZR nh / rh) by (apply Rdiv_lt_0_compat; lra).
  assert (Ex : rw * (IZR nw / rw) = IZR nw) by (field; lra).
  assert (Ey : rh * (IZR nh / rh) = IZR nh) by (field; lra).
  unfold handleImageClick. cbn [js_round RealRound js_sub js_mul js_div RealNumber].
  set (vx := (cx - left) * (IZR nw / rw)).
  set (vy := (cy - top) * (IZR nh / rh)).
  exists (Math_round vx), (Math_round vy).
  assert (Bx : 0 <= vx <= IZR nw) by (unfold vx; split; nra).
  assert (By' : 0 <= vy <= IZR nh) by (unfold vy; split; nra).
  pose proof (Math_round_bounds vx) as Rx. pose proof (Math_round_bounds vy) as Ry.
  split; [reflexivity |]. split; [| split; [| split]].
  - split.
    + assert (H : IZR (-1) < IZR (Math_round vx)) by lra. apply lt_IZR in H. lia.
    + assert (H : IZR (Math_round vx) < IZR (nw + 1)) by (rewrite plus_IZR; lra).
      apply lt_IZR in H. lia.
  - split.
    + assert (H : IZR (-1) < IZR (Math_round vy)) by lra. apply lt_IZR in H. lia.
    + assert (H : IZR (Math_round vy) < IZR (nh + 1)) by (rewrite plus_IZR; lra).
      apply lt_IZR in H. lia.
  - intros H. apply Math_round_spec. lra.
  - intros H. apply Math_round_spec. lra.
Qed.

Lemma handleImageClick_range_witness :
  exists X Y : Z,
    handleImageClick 409 100 10 20 400 300 (IZR 100) (IZR 75) = (IZR X, IZR Y) /\
    (0 <= X <= 100)%Z /\ (0 <= Y <= 75)%Z /\
    (IZR 100 - / 4 <= (409 - 10) * (IZR 100 / 400) -> X = 100%Z) /\
    (IZR 75 - / 4 <= (100 - 20) * (IZR 75 / 300) -> Y = 75%Z).
Proof.
  apply (handleImageClick_range 409 100 10 20 400 300 100 75); try lra; lia.
Defined.

(** ** api.ts *)

Local Open Scope string_scope.

Lemma endsWith_app (s t : string) : endsWith (s ++ t) t = true.
Proof.
  induction s as [| c s IH].
  - cbn [append]. destruct t; cbn [endsWith]; rewrite String.eqb_refl; reflexivity.
  - cbn [append endsWith]. rewrite IH. apply orb_true_r.
Qed.

Lemma endsWith_inv (s t : string) : endsWith s t = true -> exists p, s = p ++ t.
Proof.
  induction s as [| c s IH]; cbn [endsWith]; intros H.
  - rewrite orb_false_r in H. apply String.eqb_eq in H. exists EmptyString. exact H.
  - apply orb_prop in H. destruct H as [H | H].
    + apply String.eqb_eq in H. exists EmptyString. exact H.
    + destruct (IH H) as [p Hp]. exists (String c p). cbn [append]. rewrite Hp. reflexivity.
Qed.

Lemma append_last_inj (s t : string) (c d : ascii) :
  s ++ String c EmptyString = t ++ String d EmptyString -> s = t /\ c = d.
Proof.
  revert t. induction s as [| a s IH]; intros [| b t] H; cbn [append] in H.
  - inversion H. split; reflexivity.
  - inversion H as [[Ha Hr]]. destruct t; discriminate.
  - inversion H as [[Ha Hr]]. destruct s; discriminate.
  - inversion H as [[Ha Hr]]. destruct (IH t Hr) as [-> ->]. split; reflexivity.
Qed.

Lemma append_assoc_string (s t u : string) : (s ++ t) ++ u = s ++ (t ++ u).
Proof. induction s as [| c s IH]; cbn [append]; [reflexivity | rewrite IH; reflexivity]. Qed.

Lemma dropTrailingSlash_app (b : string) : dropTrailingSlash (b ++ "/") = b.
Proof.
  induction b as [| c b IH].
  - reflexivity.
  - cbn [append dropTrailingSlash]. rewrite IH.
    destruct (b ++ "/") as [| x y] eqn:E.
    + destruct b; discriminate.
    + cbn [String.eqb]. rewrite andb_false_r. reflexivity.
Qed.

Lemma endsWith_slash_api (b : string) : endsWith (b ++ "/") "/api" = false.
Proof.
  destruct (endsWith (b ++ "/") "/api") eqn:E; [| reflexivity].
  apply endsWith_inv in E. destruct E as [p Hp].
  change "/api" with ("/ap" ++ "i") in Hp. rewrite <- append_assoc_string in Hp.
  apply append_last_inj in Hp. destruct Hp as [_ Hp]. discriminate.
Qed.

(** X24.  Whatever the environment, the path that [getApiPath] returns
    ends with [/api]. *)
Theorem getApiPath_ends_with_api (env : Env) :
  endsWith (getApiPath env) "/api" = true.
Proof.
  unfold getApiPath. destruct (endsWith (getApiBase env) "/api") eqn:E.
  - exact E.
  - apply endsWith_app.
Qed.

(** X25.  [getApiPath] drops one slash at the end of the base before it
    appends [/api], but it looks for [/api] before dropping the slash: a
    base that ends with a slash gets [/api] appended also when it is
    [.../api/], which gives [.../api/api]. *)
Theorem getApiPath_trailing_slash (env : Env) (b : string) :
  getApiBase env = b ++ "/" -> getApiPath env = b ++ "/api".
Proof.
  intros Hb. unfold getApiPath. rewrite Hb, endsWith_slash_api, dropTrailingSlash_app.
  reflexivity.
Qed.

Lemma getApiPath_trailing_slash_witness :
  getApiPath {| window := Some {| CONFIG_API_BASE := Some "https://example.org/api/";
                                  location_hostname := "example.org" |};
                VITE_API_BASE := None |} =
  "https://example.org/api" ++ "/api".
Proof.
  apply (getApiPath_trailing_slash _ "https://example.org/api"). reflexivity.
Defined.

Lemma hexClass_not_hash (c : ascii) : hexClass c = true -> Ascii.eqb c "#" = false.
Proof.
  intros H. destruct (Ascii.eqb c "#") eqn:E; [| reflexivity].
  apply Ascii.eqb_eq in E. subst c. vm_compute in H. discriminate.
Qed.

Lemma dropFirstHash_sixOf (c1 c2 c3 c4 c5 c6 : ascii) :
  Forall (fun c => hexClass c = true) [c1; c2; c3; c4; c5; c6] ->
  dropFirstHash (sixOf c1 c2 c3 c4 c5 c6) = sixOf c1 c2 c3 c4 c5 c6.
Proof.
  intros Hall.
  repeat match goal with
         | H : Forall _ (_ :: _) |- _ => inversion H; subst; clear H
         end.
  unfold sixOf. cbn [dropFirstHash].
  rewrite !hexClass_not_hash by assumption. reflexivity.
Qed.

(** X26.  For a well-formed colour string the [hex] parameter of the URL
    that [getColorName] fetches is the six digits without [#], and it
    names the same colour as the string. *)
Theorem getColorName_hexClean_wellFormed (env : Env) (s : string) :
  wellFormedHex s ->
  getColorName_hexClean s = stripHash s /\
  sixHexDigits (getColorName_hexClean s) /\
  hexToRgb (getColorName_hexClean s) = hexToRgb s /\
  getColorName_url env s = getApiPath env ++ "/name?hex=" ++ stripHash s.
Proof.
  intros Hwf. pose proof Hwf as Hwf'.
  apply hexPatternExec_wellFormed in Hwf. destruct Hwf as [gs Hgs].
  apply hexPatternExec_Some in Hgs.
  destruct Hgs as (c1 & c2 & c3 & c4 & c5 & c6 & Hstrip & _ & Hall).
  assert (H1 : hexClass c1 = true) by (inversion Hall; assumption).
  pose proof (dropFirstHash_sixOf c1 c2 c3 c4 c5 c6 Hall) as Hdrop.
  pose proof (hexToRgb_sixOf c1 c2 c3 c4 c5 c6 Hall) as [Hplain Hhash].
  assert (Hclean : getColorName_hexClean s = stripHash s).
  { rewrite Hstrip. apply (stripHash_sixOf s c1 c2 c3 c4 c5 c6 H1) in Hstrip.
    unfold getColorName_hexClean. destruct Hstrip as [-> | ->].
    - exact Hdrop.
    - reflexivity. }
  split; [exact Hclean |]. split; [| split].
  - rewrite Hclean, Hstrip. apply sixHexDigits_sixOf.
    exists c1, c2, c3, c4, c5, c6. split; [reflexivity | exact Hall].
  - rewrite Hclean, Hstrip, Hplain.
    apply (stripHash_sixOf s c1 c2 c3 c4 c5 c6 H1) in Hstrip.
    destruct Hstrip as [-> | ->]; symmetry; assumption.
  - unfold getColorName_url. rewrite Hclean. reflexivity.
Qed.

Lemma getColorName_hexClean_wellFormed_witness :
  getColorName_hexClean "#4682B4" = stripHash "#4682B4" /\
  sixHexDigits (getColorName_hexClean "#4682B4") /\
  hexToRgb (getColorName_hexClean "#4682B4") = hexToRgb "#4682B4" /\
  getColorName_url {| window := None; VITE_API_BASE := None |} "#4682B4" =
    getApiPath {| window := None; VITE_API_BASE := None |} ++ "/name?hex=" ++ stripHash "#4682B4".
Proof.
  apply (getColorName_hexClean_wellFormed {| window := None; VITE_API_BASE := None |} "#4682B4").
  apply hexPatternExec_wellFormed. eexists. reflexivity.
Defined.

(** X27.  The colour of a tapped pixel reaches the name service intact:
    for channels from 0 to 255, [getColorName] applied to the string of
    [rgbToHex] asks for six lower-case digits whose three pairs are the
    three channels. *)
Theorem getColorName_of_rgbToHex (env : Env) (r g b : Z) :
  (0 <= r <= 255)%Z -> (0 <= g <= 255)%Z -> (0 <= b <= 255)%Z ->
  exists c1 c2 c3 c4 c5 c6,
    getColorName_url env (rgbToHex (IZR r) (IZR g) (IZR b)) =
      getApiPath env ++ "/name?hex=" ++ sixOf c1 c2 c3 c4 c5 c6 /\
    Forall (fun c => In c lowerHexAlphabet) [c1; c2; c3; c4; c5; c6] /\
    pairValue c1 c2 = r /\ pairValue c3 c4 = g /\ pairValue c5 c6 = b.
Proof.
  intros Hr Hg Hb.
  destruct (hexByte_channel r Hr) as (c1 & c2 & E1 & La1 & La2 & _ & _ & V1).
  destruct (hexByte_channel g Hg) as (c3 & c4 & E2 & Lb1 & Lb2 & _ & _ & V2).
  destruct (hexByte_channel b Hb) as (c5 & c6 & E3 & Lc1 & Lc2 & _ & _ & V3).
  exists c1, c2, c3, c4, c5, c6.
  split; [| split; [| repeat split; assumption]].
  - unfold getColorName_url, getColorName_hexClean, rgbToHex.
    cbn [map String.concat]. rewrite E1, E2, E3. reflexivity.
  - repeat (apply Forall_cons; [assumption |]). apply Forall_nil.
Qed.

Lemma getColorName_of_rgbToHex_witness :
  exists c1 c2 c3 c4 c5 c6,
    getColorName_url {| window := None; VITE_API_BASE := None |}
      (rgbToHex (IZR 70) (IZR 130) (IZR 180)) =
      getApiPath {| window := None; VITE_API_BASE := None |} ++ "/name?hex=" ++
        sixOf c1 c2 c3 c4 c5 c6 /\
    Forall (fun c => In c lowerHexAlphabet) [c1; c2; c3; c4; c5; c6] /\
    pairValue c1 c2 = 70%Z /\ pairValue c3 c4 = 130%Z /\ pairValue c5 c6 = 180%Z.
Proof.
  apply (getColorName_of_rgbToHex {| window := None; VITE_API_BASE := None |} 70 130 180); lia.
Defined.

(** ** The file that [analyzeImage] uploads *)

Lemma trimEnd_nonempty (c : ascii) (r : string) :
  isWhiteSpace c = false -> trimEnd (String c r) <> EmptyString.
Proof. intros H. cbn [trimEnd]. rewrite H. cbn [andb]. discriminate. Qed.

Lemma trimStart_head (s : string) :
  trimStart s = EmptyString \/
  exists c r, trimStart s = String c r /\ isWhiteSpace c = false.
Proof.
  induction s as [| c s IH].
  - left. reflexivity.
  - cbn [trimStart]. destruct (isWhiteSpace c) eqn:E.
    + exact IH.
    + right. exists c, s. split; [reflexivity | exact E].
Qed.

Lemma trim_empty_trimStart (s : string) :
  trim s = EmptyString -> trimStart s = EmptyString.
Proof.
  unfold trim. intros H. destruct (trimStart_head s) as [E | (c & r & E & Hc)].
  - exact E.
  - rewrite E in H. exfalso. exact (trimEnd_nonempty c r Hc H).
Qed.

Lemma blank_has_no_dot (s : string) :
  trimStart s = EmptyString -> includes s "." = false.
Proof.
  induction s as [| c s IH]; intros H.
  - reflexivity.
  - cbn [trimStart] in H. destruct (isWhiteSpace c) eqn:E; [| discriminate].
    cbn [includes]. rewrite (IH H), orb_false_r.
    cbn [String.prefix]. destruct (Ascii.ascii_dec "." c) as [<- | _]; [| reflexivity].
    vm_compute in E. discriminate.
Qed.

Lemma truthy_false (s : string) : truthy s = false -> s = EmptyString.
Proof. unfold truthy. intros H. apply negb_false_iff, String.eqb_eq in H. exact H. Qed.

Lemma truthy_true (s : string) : truthy s = true -> s <> EmptyString.
Proof. unfold truthy. intros H. apply negb_true_iff, String.eqb_neq in H. exact H. Qed.

Lemma analyzeImage_fileName_blank (n t : string) :
  trim n = EmptyString ->
  analyzeImage_fileName n t = "image.jpg" \/ analyzeImage_fileName n t = "image.png".
Proof.
  intros Hblank. unfold analyzeImage_fileName.
  assert (Hcond : negb (truthy (if truthy n then n else "image"))
                  || String.eqb (if truthy n then n else "image") "image"
                  || negb (includes (if truthy n then n else "image") ".") = true).
  { destruct (truthy n) eqn:E.
    - rewrite (blank_has_no_dot n (trim_empty_trimStart n Hblank)).
      apply orb_true_r.
    - reflexivity. }
  rewrite Hcond.
  destruct (truthy t); [| left; reflexivity].
  destruct (includes t "jpeg" || includes t "jpg"); [left; reflexivity |].
  destruct (includes t "png"); [right | left]; reflexivity.
Qed.

(** X28.  The file that [analyzeImage] uploads always has a name that is
    not blank.  A name that is not blank is kept as it is, with or without
    an extension, and the type with it; a blank name is replaced by
    [image.jpg] or [image.png], and an empty type by [image/jpeg].  So the
    name worked out from the MIME type is used for blank names only. *)
Theorem analyzeImage_upload_name (n t : string) :
  let u := analyzeImage_fileToUpload n t in
  trim (fst u) <> EmptyString /\
  ((trim n <> EmptyString /\ u = (n, t)) \/
   (trim n = EmptyString /\
    (fst u = "image.jpg" \/ fst u = "image.png") /\
    snd u = (if truthy t then t else "image/jpeg") /\ snd u <> EmptyString)).
Proof.
  cbv zeta. unfold analyzeImage_fileToUpload.
  destruct (truthy n && truthy (trim n)) eqn:E.
  - apply andb_prop in E. destruct E as [_ E]. apply truthy_true in E.
    cbn [fst snd]. split; [exact E |]. left. split; [exact E | reflexivity].
  - assert (Hblank : trim n = EmptyString).
    { apply andb_false_iff in E. destruct E as [E | E].
      - apply truthy_false in E. subst n. reflexivity.
      - apply truthy_false. exact E. }
    cbn [fst snd].
    pose proof (analyzeImage_fileName_blank n t Hblank) as Hname.
    split.
    + destruct Hname as [-> | ->]; vm_compute; discriminate.
    + right. split; [exact Hblank |]. split; [exact Hname |]. split; [reflexivity |].
      destruct (truthy t) eqn:Et; [apply truthy_true; exact Et | discriminate].
Qed.

(** ** [rgbToHex] does not clamp *)

Lemma short_uint_small (u : Hexadecimal.uint) :
  (String.length (NilZero.string_of_uint u) <= 2)%nat ->
  (Z.of_hex_int (Hexadecimal.Pos u) <= 255)%Z.
Proof.
  intros H.
  destruct u as [| u | u | u | u | u | u | u | u | u | u | u | u | u | u | u | u];
    try (vm_compute; discriminate);
    (destruct u as [| u | u | u | u | u | u | u | u | u | u | u | u | u | u | u | u];
     try (vm_compute; discriminate);
     (destruct u; [vm_compute; discriminate | cbn in H; lia ..])).
Qed.

Lemma string_of_uint_nonempty (u : Hexadecimal.uint) :
  (1 <= String.length (NilZero.string_of_uint u))%nat.
Proof. destruct u; cbn; lia. Qed.

Lemma toString16_big (n : Z) :
  (255 < n)%Z -> (3 <= String.length (toString16 n))%nat.
Proof.
  intros Hn. unfold toString16.
  destruct (Z.to_hex_int n) as [u | u] eqn:E.
  - cbn [NilZero.string_of_int].
    destruct (le_lt_dec (String.length (NilZero.string_of_uint u)) 2) as [Hs | Hs]; [| lia].
    apply short_uint_small in Hs. rewrite <- E, HexadecimalZ.of_to in Hs. lia.
  - destruct n; cbn in E; discriminate.
Qed.

Lemma toString16_neg (n : Z) :
  (n < 0)%Z -> exists c rest, toString16 n = String "-" (String c rest).
Proof.
  intros Hn. unfold toString16. destruct n as [| p | p]; try lia.
  cbn [Z.to_hex_int NilZero.string_of_int].
  pose proof (string_of_uint_nonempty (Pos.to_hex_uint p)) as H.
  destruct (NilZero.string_of_uint (Pos.to_hex_uint p)) as [| c rest];
    [cbn in H; lia |].
  exists c, rest. reflexivity.
Qed.

Lemma toString16_nonempty (n : Z) : (1 <= String.length (toString16 n))%nat.
Proof.
  unfold toString16. destruct (Z.to_hex_int n) as [u | u];
    cbn [NilZero.string_of_int].
  - apply string_of_uint_nonempty.
  - cbn [String.length]. lia.
Qed.

Lemma padByte_length (s : string) :
  (1 <= String.length s)%nat ->
  (2 <= String.length (padByte s))%nat /\
  (String.length s <= String.length (padByte s))%nat.
Proof.
  intros H. unfold padByte.
  destruct (Z.of_nat (String.length s) =? 1)%Z eqn:E.
  - apply Z.eqb_eq in E. cbn [append String.length]. lia.
  - apply Z.eqb_neq in E. lia.
Qed.

Lemma hexByte_length (x : R) : (2 <= String.length (hexByte x))%nat.
Proof. unfold hexByte. apply padByte_length, toString16_nonempty. Qed.

Lemma hexByte_big (x : R) :
  (255 < Math_round x)%Z -> (3 <= String.length (hexByte x))%nat.
Proof.
  intros H. unfold hexByte.
  pose proof (toString16_big _ H) as Hb.
  pose proof (padByte_length (toString16 (Math_round x)) (toString16_nonempty _)) as [_ Hp].
  lia.
Qed.

Lemma hexByte_neg (x : R) :
  (Math_round x < 0)%Z -> exists c rest, hexByte x = String "-" (String c rest).
Proof.
  intros H. unfold hexByte. destruct (toString16_neg _ H) as (c & rest & E).
  rewrite E. exists c, rest. unfold padByte. cbn [String.length].
  destruct (Z.of_nat (S (S (String.length rest))) =? 1)%Z eqn:E1; [| reflexivity].
  apply Z.eqb_eq in E1. lia.
Qed.

Lemma string_length_append (s t : string) :
  String.length (s ++ t) = (String.length s + String.length t)%nat.
Proof. induction s as [| c s IH]; cbn [append String.length]; [reflexivity | rewrite IH; reflexivity]. Qed.

Lemma two_chars (s : string) :
  String.length s = 2%nat -> exists a b, s = String a (String b EmptyString).
Proof.
  destruct s as [| a [| b [| c s]]]; cbn [String.length]; intros H; try discriminate.
  exists a, b. reflexivity.
Qed.

(** X29.  [rgbToHex] does not clamp: when a channel, once rounded, is below
    0 or above 255, the string it returns is not a colour string, and
    [hexToRgb] throws on it. *)
Theorem rgbToHex_does_not_clamp (r g b : R) :
  (Math_round r < 0 \/ 255 < Math_round r \/
   Math_round g < 0 \/ 255 < Math_round g \/
   Math_round b < 0 \/ 255 < Math_round b)%Z ->
  hexToRgb (rgbToHex r g b) = Throw ("Invalid hex color: " ++ rgbToHex r g b).
Proof.
  intros Hout. unfold hexToRgb.
  destruct (hexPatternExec (rgbToHex r g b)) as [gs |] eqn:Hexec; [| reflexivity].
  exfalso. apply hexPatternExec_Some in Hexec.
  destruct Hexec as (c1 & c2 & c3 & c4 & c5 & c6 & Hstrip & _ & Hall).
  unfold rgbToHex in Hstrip. cbn [map String.concat] in Hstrip.
  change (stripHash ("#" ++ (hexByte r ++ "" ++ hexByte g ++ "" ++ hexByte b)))
    with (hexByte r ++ hexByte g ++ hexByte b) in Hstrip.
  pose proof (hexByte_length r) as Lr. pose proof (hexByte_length g) as Lg.
  pose proof (hexByte_length b) as Lb.
  assert (Hlen : (String.length (hexByte r) + String.length (hexByte g)
                  + String.length (hexByte b) = 6)%nat).
  { pose proof (f_equal String.length Hstrip) as H.
    rewrite !string_length_append in H. cbn [sixOf String.length] in H. lia. }
  assert (Hneg : forall x, (Math_round x < 0)%Z -> String.length (hexByte x) = 2%nat ->
                 exists c, hexByte x = String "-" (String c EmptyString)).
  { intros x Hx Hl. destruct (hexByte_neg x Hx) as (c & rest & E).
    rewrite E in Hl. cbn [String.length] in Hl.
    destruct rest; [| cbn [String.length] in Hl; lia].
    exists c. exact E. }
  assert (Hdash : hexClass "-" = false) by (vm_compute; reflexivity).
  assert (Hbig : forall x, (255 < Math_round x)%Z -> (3 <= String.length (hexByte x))%nat)
    by exact hexByte_big.
  assert (L2r : String.length (hexByte r) = 2%nat) by lia.
  assert (L2g : String.length (hexByte g) = 2%nat) by lia.
  assert (L2b : String.length (hexByte b) = 2%nat) by lia.
  destruct (two_chars _ L2r) as (r1 & r2 & Er).
  destruct (two_chars _ L2g) as (g1 & g2 & Eg).
  destruct (two_chars _ L2b) as (b1 & b2 & Eb).
  rewrite Er, Eg, Eb in Hstrip. cbn [append] in Hstrip.
  unfold sixOf in Hstrip. inversion Hstrip; subst c1 c2 c3 c4 c5 c6. clear Hstrip.
  repeat match goal with
         | H : Forall _ (_ :: _) |- _ => inversion H; subst; clear H
         end.
  destruct Hout as [H | [H | [H | [H | [H | H]]]]].
  - destruct (Hneg r H L2r) as [c E]. rewrite Er in E. inversion E; subst. congruence.
  - specialize (Hbig r H). lia.
  - destruct (Hneg g H L2g) as [c E]. rewrite Eg in E. inversion E; subst. congruence.
  - specialize (Hbig g H). lia.
  - destruct (Hneg b H L2b) as [c E]. rewrite Eb in E. inversion E; subst. congruence.
  - specialize (Hbig b H). lia.
Qed.

Lemma rgbToHex_does_not_clamp_witness :
  hexToRgb (rgbToHex 12 256 0) = Throw ("Invalid hex color: " ++ rgbToHex 12 256 0).
Proof.
  apply (rgbToHex_does_not_clamp 12 256 0).
  right. right. right. left.
  rewrite (Math_round_IZR 256). lia.
Defined.

(** ** The lookup reads its argument as [hexToRgb] does *)

Lemma findNearestColorName_hexToRgb {num : Type} {N : JsNumber num} (s : string) (c : RGB) :
  hexToRgb s = Ok c ->
  findNearestColorName (num := num) s =
    snd (scanColors (rgb_r c) (rgb_g c) (rgb_b c) colorNames (None, None)).
Proof.
  intros Hs. apply hexToRgb_Ok_inv in Hs.
  destruct Hs as (c1 & c2 & c3 & c4 & c5 & c6 & _ & _ & -> & gs & Hgs & Hp).
  unfold findNearestColorName, findNearestScan. rewrite Hgs, Hp. reflexivity.
Qed.

(** X30.  In every arithmetic, the lookup depends on the colour only, not
    on how the string writes it: the case of the digits and a leading [#]
    do not change the entry that [findNearestColorName] returns. *)
Theorem findNearestColorName_ignores_case_and_hash
  (num : Type) (N : JsNumber num) (s : string) :
  wellFormedHex s ->
  findNearestColorName (num := num) (mapString upperChar s) =
    findNearestColorName (num := num) s /\
  findNearestColorName (num := num) (mapString lowerChar s) =
    findNearestColorName (num := num) s /\
  findNearestColorName (num := num) (stripHash s) =
    findNearestColorName (num := num) s /\
  findNearestColorName (num := num) (String "#" (stripHash s)) =
    findNearestColorName (num := num) s.
Proof.
  intros Hwf.
  destruct (hexToRgb_variants s Hwf) as (Hup & Hlo & Hstrip & Hhash & c & Hc).
  rewrite Hc in Hup, Hlo, Hstrip, Hhash.
  rewrite (findNearestColorName_hexToRgb _ c Hup), (findNearestColorName_hexToRgb _ c Hlo),
    (findNearestColorName_hexToRgb _ c Hstrip), (findNearestColorName_hexToRgb _ c Hhash),
    (findNearestColorName_hexToRgb _ c Hc).
  repeat split; reflexivity.
Qed.

Lemma findNearestColorName_ignores_case_and_hash_witness :
  findNearestColorName (num := R) (mapString upperChar "#ffa500") =
    findNearestColorName (num := R) "#ffa500" /\
  findNearestColorName (num := R) (mapString lowerChar "#ffa500") =
    findNearestColorName (num := R) "#ffa500" /\
  findNearestColorName (num := R) (stripHash "#ffa500") =
    findNearestColorName (num := R) "#ffa500" /\
  findNearestColorName (num := R) (String "#" (stripHash "#ffa500")) =
    findNearestColorName (num := R) "#ffa500".
Proof.
  apply (findNearestColorName_ignores_case_and_hash R RealNumber "#ffa500").
  apply hexPatternExec_wellFormed. eexists. reflexivity.
Defined.
